(** * IPFSBlockchain: the mining and chain-linkage engine of [miner.go]

    A shallow embedding of the miner node: the transaction pool, block
    assembly, the proof-of-work search, the SHA-256 digest it searches
    over, the goroutines spawned by [mineBlock] and the request handler
    [handleReceive].  Go's [int] is taken to be 64 bits wide (the platforms
    the project targets); its wrap-around is written out. *)

From Stdlib Require Import ZArith Lia Ascii String.
From stdpp Require Import base list strings pretty gmap.

Local Open Scope Z_scope.

(** ** crypto/sha256 *)

Module SHA256.

Definition mask32 : Z := 4294967295.

Definition w32 (x : Z) : Z := Z.land x mask32.

Definition add32 (x y : Z) : Z := w32 (x + y).

Definition rotr (n x : Z) : Z :=
  w32 (Z.lor (Z.shiftr x n) (Z.shiftl x (32 - n))).

Definition not32 (x : Z) : Z := Z.lxor x mask32.

Definition Ch (x y z : Z) : Z :=
  Z.lxor (Z.land x y) (Z.land (not32 x) z).

Definition Maj (x y z : Z) : Z :=
  Z.lxor (Z.lxor (Z.land x y) (Z.land x z)) (Z.land y z).

Definition bsig0 (x : Z) : Z :=
  Z.lxor (Z.lxor (rotr 2 x) (rotr 13 x)) (rotr 22 x).

Definition bsig1 (x : Z) : Z :=
  Z.lxor (Z.lxor (rotr 6 x) (rotr 11 x)) (rotr 25 x).

Definition ssig0 (x : Z) : Z :=
  Z.lxor (Z.lxor (rotr 7 x) (rotr 18 x)) (Z.shiftr x 3).

Definition ssig1 (x : Z) : Z :=
  Z.lxor (Z.lxor (rotr 17 x) (rotr 19 x)) (Z.shiftr x 10).

(** The constants of FIPS 180-4 are fractional parts of roots of the
    first primes: 32 bits of the cube roots of the first 64 primes for the
    round constants, 32 bits of the square roots of the first 8 for the
    initial chaining value. *)
Definition is_prime (n : nat) : bool :=
  forallb (fun d => negb (Nat.eqb (Nat.modulo n d) 0)) (seq 2 (n - 2)).

Definition primes : list Z :=
  map Z.of_nat (filter (fun n => is_prime n) (seq 2 310)).

(** The largest [r] below [2 ^ bits] with [r ^ 3 <= n], bit by bit. *)
Fixpoint cube_root (bits : nat) (n r : Z) : Z :=
  match bits with
  | O => r
  | S bits' =>
      let r' := r + Z.shiftl 1 (Z.of_nat bits') in
      cube_root bits' n (if r' * r' * r' <=? n then r' else r)
  end.

Definition K : list Z :=
  Eval vm_compute in
    map (fun p => w32 (cube_root 40 (Z.shiftl p 96) 0)) primes.

(** The eight chaining words. *)
Record digest := Digest {
  h0 : Z; h1 : Z; h2 : Z; h3 : Z; h4 : Z; h5 : Z; h6 : Z; h7 : Z
}.

Definition root32 (p : Z) : Z := w32 (Z.sqrt (Z.shiftl p 64)).

Definition init : digest :=
  Eval vm_compute in
    Digest (root32 2) (root32 3) (root32 5) (root32 7)
           (root32 11) (root32 13) (root32 17) (root32 19).

(** Padding: the byte 0x80, zero bytes up to 56 modulo 64, then the bit
    length as a big-endian 64-bit number. *)
Definition be_bytes (n : nat) (x : Z) : list Z :=
  map (fun i => Z.land (Z.shiftr x (8 * Z.of_nat i)) 255) (rev (seq 0 n)).

Definition pad (msg : list Z) : list Z :=
  let len := Z.of_nat (length msg) in
  let zeros := Z.to_nat ((55 - len) mod 64) in
  msg ++ 128 :: repeat 0 zeros ++ be_bytes 8 (8 * len).

Fixpoint be_words (bs : list Z) : list Z :=
  match bs with
  | a :: b :: c :: d :: rest =>
      (Z.shiftl a 24 + Z.shiftl b 16 + Z.shiftl c 8 + d) :: be_words rest
  | _ => []
  end.

(** Message schedule, newest word first: [ws] holds w(i-1), w(i-2), ... *)
Fixpoint extend (n : nat) (ws : list Z) : list Z :=
  match n with
  | O => ws
  | S n' =>
      let w := add32 (add32 (ssig1 (nth 1 ws 0)) (nth 6 ws 0))
                     (add32 (ssig0 (nth 14 ws 0)) (nth 15 ws 0)) in
      extend n' (w :: ws)
  end.

Definition schedule (block : list Z) : list Z := rev (extend 48 (rev block)).

Definition round (s : digest) (kw : Z * Z) : digest :=
  let '(Digest a b c d e f g h) := s in
  let t1 := add32 (add32 (add32 h (bsig1 e)) (add32 (Ch e f g) (fst kw))) (snd kw) in
  let t2 := add32 (bsig0 a) (Maj a b c) in
  Digest (add32 t1 t2) a b c (add32 d t1) e f g.

Definition compress (s : digest) (block : list Z) : digest :=
  let '(Digest a b c d e f g h) := fold_left round (combine K (schedule block)) s in
  Digest (add32 (h0 s) a) (add32 (h1 s) b) (add32 (h2 s) c) (add32 (h3 s) d)
         (add32 (h4 s) e) (add32 (h5 s) f) (add32 (h6 s) g) (add32 (h7 s) h).

Fixpoint blocks (n : nat) (ws : list Z) (s : digest) : digest :=
  match n with
  | O => s
  | S n' => blocks n' (skipn 16 ws) (compress s (firstn 16 ws))
  end.

(** [sha256.Sum256]: the digest of a byte string, as eight 32-bit words. *)
Definition Sum256 (msg : list Z) : digest :=
  let ws := be_words (pad msg) in
  blocks (Nat.div (length ws) 16) ws init.

End SHA256.

(** ** fmt: the verbs used by [generateHash] *)

Definition hex_digit (n : Z) : ascii :=
  match n with
  | 0 => "0" | 1 => "1" | 2 => "2" | 3 => "3" | 4 => "4" | 5 => "5"
  | 6 => "6" | 7 => "7" | 8 => "8" | 9 => "9" | 10 => "a" | 11 => "b"
  | 12 => "c" | 13 => "d" | 14 => "e" | _ => "f"
  end%char.

Definition nibble (x : Z) (i : Z) : ascii :=
  hex_digit (Z.land (Z.shiftr x (4 * i)) 15).

(** Eight lowercase hexadecimal characters of a 32-bit word. *)
Definition hex_word (x : Z) (rest : string) : string :=
  String (nibble x 7) (String (nibble x 6) (String (nibble x 5)
  (String (nibble x 4) (String (nibble x 3) (String (nibble x 2)
  (String (nibble x 1) (String (nibble x 0) rest))))))).

(** [fmt.Sprintf("%x", [32]byte)]: 64 lowercase hexadecimal characters. *)
Definition sprintf_x (d : SHA256.digest) : string :=
  let '(SHA256.Digest a b c d e f g h) := d in
  hex_word a (hex_word b (hex_word c (hex_word d
  (hex_word e (hex_word f (hex_word g (hex_word h EmptyString))))))).

(** [[]byte(s)] *)
Definition bytes_of_string (s : string) : list Z :=
  map (fun c => Z.of_N (N_of_ascii c)) (list_ascii_of_string s).

Definition sha256_hex (s : string) : string :=
  sprintf_x (SHA256.Sum256 (bytes_of_string s)).


(** ** Go's [int] (64 bits, two's complement) *)

Definition max_int : Z := 9223372036854775807.
Definition min_int : Z := -9223372036854775808.

Definition wrap_int (x : Z) : Z :=
  (x - min_int) mod 18446744073709551616 + min_int.

(** ** The strings package, as far as [miner.go] uses it *)

(** [strings.Repeat(s, count)] panics on a negative count. *)
Definition strings_Repeat (s : string) (count : Z) : option string :=
  if count <? 0 then None
  else Some (Nat.iter (Z.to_nat count) (String.append s) EmptyString).

(** [strings.HasPrefix(s, prefix)] *)
Definition strings_HasPrefix (s pre : string) : bool := String.prefix pre s.

(** [strings.HasSuffix(s, suffix)] *)
Definition strings_HasSuffix (s suf : string) : bool :=
  let n := String.length s in
  let m := String.length suf in
  if (m <=? n)%nat then String.eqb (String.substring (n - m) m s) suf
  else false.

(** [strings.Split(s, sep)] for a separator of one byte, which is all the
    program passes (a comma, a colon). *)
Fixpoint strings_Split (s : string) (sep : ascii) : list string :=
  match s with
  | EmptyString => [EmptyString]
  | String c s' =>
      if Ascii.eqb c sep then EmptyString :: strings_Split s' sep
      else match strings_Split s' sep with
           | p :: ps => String c p :: ps
           | [] => [String c EmptyString]
           end
  end.

(** The text before and after the first [sep] of [s], if there is one. *)
Fixpoint cut (s : string) (sep : ascii) : option (string * string) :=
  match s with
  | EmptyString => None
  | String c s' =>
      if Ascii.eqb c sep then Some (EmptyString, s')
      else match cut s' sep with
           | Some (a, b) => Some (String c a, b)
           | None => None
           end
  end.

(** [strings.SplitN(s, sep, 2)] for a separator of one byte. *)
Definition strings_SplitN2 (s : string) (sep : ascii) : list string :=
  match cut s sep with
  | Some (a, b) => [a; b]
  | None => [s]
  end.

(** ** Data model (miner.go:18-42) *)

Record Transaction := mkTransaction {
  ID : string;
  Data : string
}.

Record Block := mkBlock {
  PrevHash : string;
  Transactions : list Transaction;
  Nonce : Z;
  Hash : string;
  PrevCID : string;
  BlockNumber : Z;
  Timestamp : Z;
  Creator : string;
  Difficulty : Z
}.

(** The zero value of [Block], which [currentBlock] holds at start. *)
Definition zero_Block : Block :=
  mkBlock EmptyString [] 0 EmptyString EmptyString 0 0 EmptyString 0.

Definition set_Nonce (b : Block) (n : Z) : Block :=
  mkBlock (PrevHash b) (Transactions b) n (Hash b) (PrevCID b)
          (BlockNumber b) (Timestamp b) (Creator b) (Difficulty b).

Definition set_Hash (b : Block) (h : string) : Block :=
  mkBlock (PrevHash b) (Transactions b) (Nonce b) h (PrevCID b)
          (BlockNumber b) (Timestamp b) (Creator b) (Difficulty b).

(** The package-level variables guarded by [mutex]. *)
Record State := mkState {
  transactionPool : list Transaction;
  currentBlock : Block;
  previousBlockCID : string;
  previousBlockHash : string
}.

Definition init_State : State := mkState [] zero_Block "-1" "-1".

(** ** The digest (miner.go:111-115) *)

(** [%s] of a [Transaction] and of a [[]Transaction]. *)
Definition sprint_Transaction (t : Transaction) : string :=
  "{" +:+ ID t +:+ " " +:+ Data t +:+ "}".

Fixpoint sprint_elems (ts : list Transaction) : string :=
  match ts with
  | [] => EmptyString
  | [t] => sprint_Transaction t
  | t :: ts' => sprint_Transaction t +:+ " " +:+ sprint_elems ts'
  end.

Definition sprint_Transactions (ts : list Transaction) : string :=
  "[" +:+ sprint_elems ts +:+ "]".

(** [%d] of an [int]. *)
Definition sprint_int (n : Z) : string := pretty n.

(** [fmt.Sprintf("%s%d%d%s", block.PrevHash, block.BlockNumber, nonce,
    block.Transactions)] *)
Definition blockData (block : Block) (nonce : Z) : string :=
  PrevHash block +:+ sprint_int (BlockNumber block) +:+ sprint_int nonce
  +:+ sprint_Transactions (Transactions block).

(** The assignment [block.Nonce = nonce] acts on the function's own copy
    of the block and is kept as written. *)
Definition generateHash (block : Block) (nonce : Z) : string :=
  let block := set_Nonce block nonce in
  sha256_hex (blockData block nonce).

(** ** Proof of work (miner.go:86-108) *)

(** [None] is the panic of [strings.Repeat]. *)
Definition validProof (hash : string) (difficulty : Z) : option bool :=
  match strings_Repeat "0" difficulty with
  | Some pre => Some (strings_HasPrefix hash pre)
  | None => None
  end.

Inductive outcome (A : Type) : Type :=
| Returns (a : A)
| Panics
| OutOfFuel.
Arguments Returns {A} a.
Arguments Panics {A}.
Arguments OutOfFuel {A}.

(** The [for] loop of [proofOfWork], run for at most [fuel] iterations
    from the candidate [nonce]; [nonce++] wraps like Go's [int]. *)
Fixpoint proofOfWork_loop (fuel : nat) (block : Block) (difficulty : Z)
    (nonce : Z) : outcome Z :=
  match fuel with
  | O => OutOfFuel
  | S fuel' =>
      let hash := generateHash block nonce in
      match validProof hash difficulty with
      | None => Panics
      | Some true => Returns nonce
      | Some false =>
          proofOfWork_loop fuel' block difficulty (wrap_int (nonce + 1))
      end
  end.

Definition proofOfWork (fuel : nat) (block : Block) (difficulty : Z) : outcome Z :=
  proofOfWork_loop fuel block difficulty 0.

(** ** The pool and the chain tip (miner.go:117-182) *)

(** [addTransaction]: one critical section. *)
Definition addTransaction (transaction : Transaction) (s : State) : State :=
  mkState (transactionPool s ++ [transaction]) (currentBlock s)
          (previousBlockCID s) (previousBlockHash s).

(** The critical section of [mineBlock] (lines 119-132): the block handed
    to the search goroutine, if the pool holds three transactions.  The
    slice [transactionPool[:3]] shares its array with the pool; the pool
    is only ever appended to beyond these three cells and re-sliced, so
    the block's transactions keep their values. *)
Definition mineBlock (miner : string) (difficulty : Z) (now : Z) (s : State)
    : option Block :=
  if (3 <=? length (transactionPool s))%nat then
    Some {| PrevHash := previousBlockHash s;
            PrevCID := previousBlockCID s;
            BlockNumber := wrap_int (BlockNumber (currentBlock s) + 1);
            Transactions := firstn 3 (transactionPool s);
            Timestamp := now;
            Creator := miner;
            Difficulty := difficulty;
            Nonce := 0;
            Hash := EmptyString |}
  else None.

(** Lines 137-138, once [proofOfWork] has returned [nonce]. *)
Definition seal (block : Block) (nonce : Z) : Block :=
  let block := set_Nonce block nonce in
  set_Hash block (generateHash block nonce).

(** Lines 145-149: the second critical section. *)
Definition commitTip (block : Block) (s : State) : State :=
  mkState (transactionPool s) block (PrevCID block) (Hash block).

(** Lines 155-157: the third critical section; [transactionPool[3:]]
    panics when the pool is shorter than three. *)
Definition shrinkPool (s : State) : option State :=
  if (3 <=? length (transactionPool s))%nat then
    Some (mkState (skipn 3 (transactionPool s)) (currentBlock s)
                  (previousBlockCID s) (previousBlockHash s))
  else None.

(** ** Goroutines

    Every access to the shared variables happens inside a critical section
    of [mutex], and no critical section blocks; so a run of the program is
    an interleaving of the sections below, each taken as one step. *)

Inductive Goroutine :=
| GMineBlock (miner : string) (difficulty : Z)   (* go mineBlock(miner, difficulty) *)
| GSearch (block : Block) (difficulty : Z)       (* the closure, at line 136 *)
| GCommit (block : Block)                        (* the closure, at line 145 *)
| GShrink                                        (* the closure, at line 155 *)
| GUpload (block : Block)                        (* go uploadBlockToIPFS(block) *)
| GBroadcast (block : Block)                     (* go broadcastBlock(block) *)
| GDone.

Record World := mkWorld {
  globals : State;
  goroutines : list Goroutine;
  broadcasts : list Block;     (* the blocks printed by broadcastBlock *)
  panicked : bool              (* a panic ends the process *)
}.

Definition init_World : World := mkWorld init_State [] [] false.

(** Goroutine [i] ends its step as [g] and starts the goroutines [new]. *)
Definition continue (w : World) (s : State) (i : nat) (g : Goroutine)
    (new : list Goroutine) : World :=
  mkWorld s (<[i := g]> (goroutines w) ++ new) (broadcasts w) (panicked w).

Definition panic (w : World) : World :=
  mkWorld (globals w) (goroutines w) (broadcasts w) true.

(** [uploadBlockToIPFS] has an empty body. *)
Definition uploadBlockToIPFS (block : Block) (w : World) : World := w.

(** [broadcastBlock] prints the block. *)
Definition broadcastBlock (block : Block) (w : World) : World :=
  mkWorld (globals w) (goroutines w) (broadcasts w ++ [block]) (panicked w).

(** One step of goroutine [i].  [now] is what [time.Now().Unix()] returns
    if the step reads the clock; [fuel] bounds the iterations of the
    search if the step is the search.  [None]: the step cannot be taken
    (no such goroutine, it has ended, the process has panicked, or the
    search does not finish within [fuel]). *)
Definition step (i : nat) (now : Z) (fuel : nat) (w : World) : option World :=
  if panicked w then None else
  match goroutines w !! i with
  | None => None
  | Some (GMineBlock miner difficulty) =>
      match mineBlock miner difficulty now (globals w) with
      | Some block =>
          Some (continue w (globals w) i GDone [GSearch block difficulty])
      | None => Some (continue w (globals w) i GDone [])
      end
  | Some (GSearch block difficulty) =>
      match proofOfWork fuel block difficulty with
      | Returns nonce =>
          let block := seal block nonce in
          Some (continue w (globals w) i (GCommit block) [GUpload block])
      | Panics => Some (panic w)
      | OutOfFuel => None
      end
  | Some (GCommit block) =>
      Some (continue w (commitTip block (globals w)) i GShrink [GBroadcast block])
  | Some GShrink =>
      match shrinkPool (globals w) with
      | Some s => Some (continue w s i GDone [])
      | None => Some (panic w)
      end
  | Some (GUpload block) =>
      Some (continue (uploadBlockToIPFS block w) (globals w) i GDone [])
  | Some (GBroadcast block) =>
      Some (continue (broadcastBlock block w) (globals w) i GDone [])
  | Some GDone => None
  end.

(** ** The request handler (miner.go:184-281) *)

Record Request := mkRequest {
  Method : string;
  RemoteAddr : string;
  Body : string + string       (* what io.ReadAll returns: the body, or an error *)
}.

Record Response := mkResponse {
  StatusCode : Z;
  Written : string
}.

(** What the handler gets from outside the program: two library functions
    left abstract, and the results of its file and network operations
    ([None] is a nil error). *)
Record Env := mkEnv {
  strings_TrimSpace : string -> string;
  filepath_Join : string -> string -> string;
  os_Getwd : string + string;
  downloadFromIPFS : string -> string -> option string;
  executePythonFile : string -> string -> string + string;
  removeFile : string -> option string
}.

Definition http_Error (msg : string) (code : Z) : Response :=
  mkResponse code (msg +:+ String "010"%char EmptyString).

(** [strings.Split(r.RemoteAddr, ":")[0]] *)
Definition clientIP_of (r : Request) : string :=
  match strings_Split (RemoteAddr r) ":" with
  | ip :: _ => ip
  | [] => EmptyString
  end.

Definition handleReceive (env : Env) (r : Request) (w : World) : Response * World :=
  let clientIP := clientIP_of r in
  if negb (String.eqb (Method r) "POST") then
    (http_Error "Invalid request method" 405, w)
  else
  match Body r with
  | inr _ => (http_Error "Failed to read request body" 500, w)
  | inl body =>
  let hashes := strings_Split body "," in
  match hashes with
  | [hash0; hash1] =>
    let pythonParts := strings_SplitN2 hash0 "|" in
    let txtParts := strings_SplitN2 hash1 "|" in
    match pythonParts, txtParts with
    | [p0; p1], [t0; t1] =>
      let pythonHash := strings_TrimSpace env p0 in
      let pythonExt := strings_TrimSpace env p1 in
      let txtHash := strings_TrimSpace env t0 in
      let txtExt := strings_TrimSpace env t1 in
      let pythonExt :=
        if negb (strings_HasSuffix pythonExt ".py") then ".py" else pythonExt in
      let txtExt :=
        if negb (strings_HasSuffix txtExt ".txt") then ".txt" else txtExt in
      match os_Getwd env with
      | inr err =>
          (http_Error ("Failed to get current directory: " +:+ err) 500, w)
      | inl currentDir =>
      let pythonFilename := filepath_Join env currentDir (pythonHash +:+ pythonExt) in
      let txtFilename := filepath_Join env currentDir (txtHash +:+ txtExt) in
      match downloadFromIPFS env pythonHash pythonFilename with
      | Some err =>
          (http_Error ("Failed to download Python file: " +:+ err) 500, w)
      | None =>
      match downloadFromIPFS env txtHash txtFilename with
      | Some err =>
          (http_Error ("Failed to download text file: " +:+ err) 500, w)
      | None =>
      match executePythonFile env pythonFilename txtFilename with
      | inr err =>
          (http_Error ("Failed to execute Python file: " +:+ err) 500, w)
      | inl result =>
      match removeFile env pythonFilename with
      | Some err =>
          (http_Error ("Failed to remove Python file: " +:+ err) 500, w)
      | None =>
      match removeFile env txtFilename with
      | Some err =>
          (http_Error ("Failed to remove text file: " +:+ err) 500, w)
      | None =>
          let s := addTransaction (mkTransaction clientIP result) (globals w) in
          (mkResponse 200 "Hashes processed successfully",
           mkWorld s (goroutines w ++ [GMineBlock clientIP 4])
                   (broadcasts w) (panicked w))
      end end end end end end
    | _, _ => (http_Error "Hashes must include file extensions" 400, w)
    end
  | _ =>
    (http_Error
       "Expected two hashes: one for the Python file and one for the text file"
       400, w)
  end
  end.

(** ** Runs *)

Inductive Action :=
| DoAdd (transaction : Transaction)         (* a call of addTransaction *)
| GoMine (miner : string) (difficulty : Z)  (* go mineBlock(miner, difficulty) *)
| DoReceive (env : Env) (r : Request)       (* a request to /receive *)
| Step (i : nat) (now : Z) (fuel : nat).   (* goroutine i takes its next step *)

Definition act (a : Action) (w : World) : option World :=
  if panicked w then None else
  match a with
  | DoAdd transaction =>
      Some (mkWorld (addTransaction transaction (globals w)) (goroutines w)
                    (broadcasts w) (panicked w))
  | GoMine miner difficulty =>
      Some (mkWorld (globals w) (goroutines w ++ [GMineBlock miner difficulty])
                    (broadcasts w) (panicked w))
  | DoReceive env r => Some (snd (handleReceive env r w))
  | Step i now fuel => step i now fuel w
  end.

Fixpoint run (acts : list Action) (w : World) : option World :=
  match acts with
  | [] => Some w
  | a :: acts' =>
      match act a w with
      | Some w' => run acts' w'
      | None => None
      end
  end.

(** ** Vocabulary of the statements *)

(** The number of leading ['0'] characters of a string. *)
Fixpoint leading_zeros (s : string) : nat :=
  match s with
  | String c s' => if Ascii.eqb c "0" then S (leading_zeros s') else O
  | EmptyString => O
  end.

(** The digest of [block] with [nonce] has at least [d] leading zeros. *)
Definition meets (block : Block) (d : Z) (nonce : Z) : Prop :=
  (Z.to_nat d <= leading_zeros (generateHash block nonce))%nat.

(** The number of occurrences of a byte in a string. *)
Fixpoint count_char (c : ascii) (s : string) : nat :=
  match s with
  | String c' s' => if Ascii.eqb c' c then S (count_char c s') else count_char c s'
  | EmptyString => O
  end.

(** A request body is a comma-separated list of content addresses, each
    followed by a ['|'] and its file-type suffix.  It is malformed when
    it does not hold exactly two addresses (one comma), or when one of its
    two entries has no ['|'] and suffix. *)
Definition malformed (body : string) : Prop :=
  count_char "," body <> 1%nat
  \/ exists python txt : string,
      body = python +:+ "," +:+ txt
      /\ count_char "," python = 0%nat /\ count_char "," txt = 0%nat
      /\ (count_char "|" python = 0%nat \/ count_char "|" txt = 0%nat).

(** The block a goroutine is mining, from its assembly to its commit. *)
Definition attempt_block (g : Goroutine) : option Block :=
  match g with
  | GSearch b _ | GCommit b => Some b
  | _ => None
  end.

(** The attempts in flight: assembled and not yet committed. *)
Definition in_flight (w : World) : list Block := omap attempt_block (goroutines w).

(** The block an action commits, if it is the commit step of a goroutine. *)
Definition committed (a : Action) (w : World) : list Block :=
  match a with
  | Step i _ _ =>
      match goroutines w !! i with
      | Some (GCommit b) => [b]
      | _ => []
      end
  | _ => []
  end.

(** The blocks committed in the course of a run, in order. *)
Fixpoint commits (acts : list Action) (w : World) : list Block :=
  match acts with
  | [] => []
  | a :: acts' =>
      match act a w with
      | Some w' => committed a w ++ commits acts' w'
      | None => []
      end
  end.

(** The transactions an action appends to the pool. *)
Definition adds (a : Action) (w : World) : list Transaction :=
  match a with
  | DoAdd transaction => [transaction]
  | DoReceive env r =>
      skipn (length (transactionPool (globals w)))
            (transactionPool (globals (snd (handleReceive env r w))))
  | _ => []
  end.

(** The transactions added in the course of a run, in order. *)
Fixpoint added (acts : list Action) (w : World) : list Transaction :=
  match acts with
  | [] => []
  | a :: acts' =>
      match act a w with
      | Some w' => adds a w ++ added acts' w'
      | None => []
      end
  end.

(** An action of a serial run: [mineBlock] enters its critical section
    only while no other attempt is in flight. *)
Definition serial (a : Action) (w : World) : bool :=
  match a with
  | Step i _ _ =>
      match goroutines w !! i with
      | Some (GMineBlock _ _) => bool_decide (in_flight w = [])
      | _ => true
      end
  | _ => true
  end.

Fixpoint run_serial (acts : list Action) (w : World) : option World :=
  match acts with
  | [] => Some w
  | a :: acts' =>
      if serial a w then
        match act a w with
        | Some w' => run_serial acts' w'
        | None => None
        end
      else None
  end.

(** ** Invariants of runs *)

Definition tipNumber (w : World) : Z := BlockNumber (currentBlock (globals w)).

(** The tip address is "-1", and so is the PrevCID of every block being
    mined. *)
Definition cid_stuck (w : World) : Prop :=
  previousBlockCID (globals w) = "-1"
  /\ Forall (fun g => forall b, attempt_block g = Some b -> PrevCID b = "-1")
            (goroutines w).

(** The tip is block [k], and the one attempt in flight, if any, was
    assembled on it. *)
Definition attached (w : World) (k : Z) : Prop :=
  tipNumber w = k
  /\ (in_flight w = [] \/ exists b, in_flight w = [b] /\ BlockNumber b = k + 1).

Definition blocks_of (g : Goroutine) : list Block :=
  match attempt_block g with Some b => [b] | None => [] end.

(** ** Concrete inputs *)

Definition t1 : Transaction := mkTransaction "10.0.0.1" "r1".
Definition t2 : Transaction := mkTransaction "10.0.0.2" "r2".
Definition t3 : Transaction := mkTransaction "10.0.0.3" "r3".
Definition t4 : Transaction := mkTransaction "10.0.0.4" "r4".

(** The block [mineBlock("a", 1)] assembles at time 100 from the first
    three transactions on the genesis tip. *)
Definition block1 : Block :=
  mkBlock "-1" [t1; t2; t3] 0 EmptyString "-1" 1 100 "a" 1.



(** An environment in which every file and network operation succeeds,
    and two requests from the client at 10.0.0.9. *)
Definition env_ok : Env :=
  mkEnv (fun s => s) (fun dir name => dir +:+ "/" +:+ name) (inl "/srv")
        (fun _ _ => None) (fun _ _ => inl "42") (fun _ => None).

Definition request_ok : Request :=
  mkRequest "POST" "10.0.0.9:51000" (inl "QmProgram|.py,QmInput|.txt").


Definition request_no_suffix : Request :=
  mkRequest "POST" "10.0.0.9:51000" (inl "QmProgram,QmInput|.txt").

Definition request_empty_suffix : Request :=
  mkRequest "POST" "10.0.0.9:51000" (inl "QmProgram|,QmInput|").

(** A world whose pool already holds [t1] and [t2]. *)
Definition world_two : World :=
  mkWorld (mkState [t1; t2] zero_Block "-1" "-1") [] [] false.

Definition t5 : Transaction := mkTransaction "10.0.0.5" "r5".
Definition t6 : Transaction := mkTransaction "10.0.0.6" "r6".

(** [block1] once mined, and the block a second attempt assembles from the
    same pool and tip at time 101. *)
Definition sealed1 : Block := seal block1 54.
Definition sealed1b : Block :=
  seal (mkBlock "-1" [t1; t2; t3] 0 EmptyString "-1" 1 101 "b" 1) 54.

(** One mining attempt on three transactions, up to its commit; the
    goroutine of [uploadBlockToIPFS] (number 2) has not run. *)
Definition run_commit : list Action :=
  [DoAdd t1; DoAdd t2; DoAdd t3; GoMine "a" 1;
   Step 0 100 0;      (* mineBlock assembles block1 *)
   Step 1 0 55;       (* the search returns nonce 54 *)
   Step 1 0 0].       (* the tip is committed *)

(** The world [run_commit] ends in. *)
Definition world_commit : World :=
  mkWorld (mkState [t1; t2; t3] sealed1 "-1" (Hash sealed1))
          [GDone; GShrink; GUpload sealed1; GBroadcast sealed1] [] false.

(** Four requests' worth of work: the second attempt is assembled while
    the first is still searching. *)
Definition run_overlap : list Action :=
  [DoAdd t1; DoAdd t2; DoAdd t3; GoMine "a" 1;
   Step 0 100 0;      (* attempt a assembles block1 from [t1; t2; t3] *)
   DoAdd t4; GoMine "b" 1;
   Step 2 101 0;      (* attempt b assembles from [t1; t2; t3] as well *)
   Step 1 0 55;       (* a: the search returns *)
   Step 1 0 0;        (* a: commit *)
   Step 5 0 0;        (* a: broadcastBlock *)
   Step 1 0 0;        (* a: the pool shrinks to [t4] *)
   Step 3 0 55;       (* b: the search returns *)
   Step 3 0 0;        (* b: commit *)
   Step 7 0 0;        (* b: broadcastBlock *)
   Step 3 0 0].       (* b: transactionPool[3:] on a pool of one *)

(** The same with six transactions in the pool: nothing panics. *)
Definition run_overlap6 : list Action :=
  [DoAdd t1; DoAdd t2; DoAdd t3; GoMine "a" 1;
   Step 0 100 0;
   DoAdd t4; GoMine "b" 1;
   Step 2 101 0;
   DoAdd t5; DoAdd t6;
   Step 1 0 55; Step 1 0 0; Step 5 0 0; Step 1 0 0;
   Step 3 0 55; Step 3 0 0; Step 7 0 0; Step 3 0 0].

(** Three attempts: a and b are assembled on the genesis tip, c on the
    tip a has committed; b commits last. *)
Definition run_race : list Action :=
  [DoAdd t1; DoAdd t2; DoAdd t3;
   GoMine "a" 1; GoMine "b" 1; GoMine "c" 1;
   Step 0 100 0;      (* a assembles block 1 *)
   Step 1 101 0;      (* b assembles block 1 *)
   Step 3 0 55;       (* a: search *)
   Step 3 0 0;        (* a: commit, the tip is block 1 *)
   Step 2 102 0;      (* c assembles block 2 *)
   Step 7 0 400;      (* c: search *)
   Step 7 0 0;        (* c: commit, the tip is block 2 *)
   Step 4 0 55;       (* b: search *)
   Step 4 0 0].       (* b: commit, the tip is block 1 again *)

(** ** The handler's file and network operations *)

(** The calls [handleReceive] makes to the outside, in order. *)
Inductive IO :=
| IO_Getwd
| IO_Download (hash filename : string)
| IO_Execute (filename arg : string)
| IO_Remove (filename : string).

(** [handleReceive] once more, keeping the calls it makes instead of its
    response. *)
Definition handleReceive_io (env : Env) (r : Request) : list IO :=
  if negb (String.eqb (Method r) "POST") then []
  else
  match Body r with
  | inr _ => []
  | inl body =>
  let hashes := strings_Split body "," in
  match hashes with
  | [hash0; hash1] =>
    let pythonParts := strings_SplitN2 hash0 "|" in
    let txtParts := strings_SplitN2 hash1 "|" in
    match pythonParts, txtParts with
    | [p0; p1], [t0; t1] =>
      let pythonHash := strings_TrimSpace env p0 in
      let pythonExt := strings_TrimSpace env p1 in
      let txtHash := strings_TrimSpace env t0 in
      let txtExt := strings_TrimSpace env t1 in
      let pythonExt :=
        if negb (strings_HasSuffix pythonExt ".py") then ".py" else pythonExt in
      let txtExt :=
        if negb (strings_HasSuffix txtExt ".txt") then ".txt" else txtExt in
      IO_Getwd ::
      match os_Getwd env with
      | inr _ => []
      | inl currentDir =>
      let pythonFilename := filepath_Join env currentDir (pythonHash +:+ pythonExt) in
      let txtFilename := filepath_Join env currentDir (txtHash +:+ txtExt) in
      IO_Download pythonHash pythonFilename ::
      match downloadFromIPFS env pythonHash pythonFilename with
      | Some _ => []
      | None =>
      IO_Download txtHash txtFilename ::
      match downloadFromIPFS env txtHash txtFilename with
      | Some _ => []
      | None =>
      IO_Execute pythonFilename txtFilename ::
      match executePythonFile env pythonFilename txtFilename with
      | inr _ => []
      | inl _ =>
      IO_Remove pythonFilename ::
      match removeFile env pythonFilename with
      | Some _ => []
      | None => [IO_Remove txtFilename]
      end end end end end
    | _, _ => []
    end
  | _ => []
  end
  end.

(** ** The client (client.go:101-133) *)

(** [filepath.Ext] with ['/'] as the path separator: the scan from the end
    of the path back to the last dot of its last element.  [rest] is what
    is still to be scanned, last byte first; [suffix] what has been. *)
Fixpoint ext_scan (rest : list ascii) (suffix : string) : string :=
  match rest with
  | [] => EmptyString
  | c :: rest' =>
      if Ascii.eqb c "/" then EmptyString
      else if Ascii.eqb c "." then String c suffix
      else ext_scan rest' (String c suffix)
  end.

Definition filepath_Ext (path : string) : string :=
  ext_scan (rev (list_ascii_of_string path)) EmptyString.

(** [strings.Join(elems, sep)] *)
Fixpoint strings_Join (elems : list string) (sep : string) : string :=
  match elems with
  | [] => EmptyString
  | [e] => e
  | e :: elems' => e +:+ sep +:+ strings_Join elems' sep
  end.

(** The files [main] uploads. *)
Definition files : list string := ["algo.py"; "data.txt"].

(** The map [fileHashes] after the first loop of [main]; [uploadToIPFS]
    gives the hash of a file or an error, and a file whose upload fails is
    skipped. *)
Definition fileHashes (uploadToIPFS : string -> string + string)
    : gmap string string :=
  foldl (fun m filePath =>
           match uploadToIPFS filePath with
           | inl hash => <[filePath := hash]> m
           | inr _ => m
           end) ∅ files.

(** The second loop and the join, for the order [entries] in which
    [range] visits the map. *)
Definition join_hashes (entries : list (string * string)) : string :=
  strings_Join
    (map (fun '(filePath, hash) => hash +:+ "|" +:+ filepath_Ext filePath) entries)
    ",".

(** Go leaves the order of [range] over a map open: [main] may send
    [hashes] for any order of the entries of [fileHashes]. *)
Definition main_sends (uploadToIPFS : string -> string + string)
    (hashes : string) : Prop :=
  exists entries : list (string * string),
    entries ≡ₚ map_to_list (fileHashes uploadToIPFS)
    /\ hashes = join_hashes entries.

(** [sendHashToTailscalePeers]: the request each peer's miner receives. *)
Definition request_from_client (remoteAddr hashes : string) : Request :=
  mkRequest "POST" remoteAddr (inl hashes).

(** ** Vocabulary of further statements *)

Definition upload_ok (filePath : string) : string + string :=
  if String.eqb filePath "algo.py" then inl "QmProgram" else inl "QmInput".

(** A lowercase hexadecimal digit. *)
Definition is_hex (c : ascii) : bool :=
  let n := nat_of_ascii c in
  ((48 <=? n) && (n <=? 57) || (97 <=? n) && (n <=? 102))%nat.

(** The number of removals (of three transactions each) an action makes. *)
Definition removed (a : Action) (w : World) : nat :=
  match a with
  | Step i _ _ =>
      match goroutines w !! i, shrinkPool (globals w) with
      | Some GShrink, Some _ => 1
      | _, _ => 0
      end
  | _ => 0
  end.

(** The removals made in the course of a run. *)
Fixpoint removals (acts : list Action) (w : World) : nat :=
  match acts with
  | [] => 0
  | a :: acts' =>
      match act a w with
      | Some w' => removed a w + removals acts' w'
      | None => 0
      end
  end.

(** The batch of [b] is the [j]-th group of three of the transactions [A]. *)
Definition batch_of (A : list Transaction) (b : Block) : Prop :=
  exists j : nat,
    (3 * j + 3 <= length A)%nat /\ Transactions b = take 3 (drop (3 * j) A).

(** [b] carries a proof of work for its own difficulty. *)
Definition pow_ok (b : Block) : Prop :=
  Hash b = generateHash b (Nonce b)
  /\ String.length (Hash b) = 64%nat
  /\ 0 <= Difficulty b
  /\ (Z.to_nat (Difficulty b) <= leading_zeros (Hash b))%nat.

(** [b] is attached to the genesis tip or to one of the blocks [earlier]. *)
Definition parent_in (earlier : list Block) (b : Block) : Prop :=
  (PrevHash b = "-1" /\ BlockNumber b = 1)
  \/ exists c, In c earlier /\ PrevHash b = Hash c
               /\ BlockNumber b = wrap_int (BlockNumber c + 1).

(** The blocks are linked one to the next by their hashes, the first one
    to [h]. *)
Fixpoint chain_from (h : string) (bs : list Block) : Prop :=
  match bs with
  | [] => True
  | b :: bs' => PrevHash b = h /\ chain_from (Hash b) bs'
  end.

(** The stage of a mining attempt: from its assembly to the removal of
    its batch. *)
Inductive Stage :=
| Mining (b : Block)
| Removing.

Definition stage (g : Goroutine) : option Stage :=
  match g with
  | GSearch b _ | GCommit b => Some (Mining b)
  | GShrink => Some Removing
  | _ => None
  end.

(** The attempts that have not run to their end. *)
Definition unfinished (w : World) : list Stage := omap stage (goroutines w).

(** An action of a sequential run: [mineBlock] enters its critical section
    only when every earlier attempt has run to its end. *)
Definition sequential (a : Action) (w : World) : bool :=
  match a with
  | Step i _ _ =>
      match goroutines w !! i with
      | Some (GMineBlock _ _) => bool_decide (unfinished w = [])
      | _ => true
      end
  | _ => true
  end.

Fixpoint run_sequential (acts : list Action) (w : World) : option World :=
  match acts with
  | [] => Some w
  | a :: acts' =>
      if sequential a w then
        match act a w with
        | Some w' => run_sequential acts' w'
        | None => None
        end
      else None
  end.

(** The blocks waiting to be printed by [broadcastBlock]. *)
Definition to_broadcast (g : Goroutine) : option Block :=
  match g with
  | GBroadcast b => Some b
  | _ => None
  end.

(** ** The standalone executor's handler

    The other server of the repository has the same [handleReceive] less
    the client address, the transaction and the mining. *)
Definition handleReceive_plain (env : Env) (r : Request) : Response :=
  if negb (String.eqb (Method r) "POST") then
    http_Error "Invalid request method" 405
  else
  match Body r with
  | inr _ => http_Error "Failed to read request body" 500
  | inl body =>
  let hashes := strings_Split body "," in
  match hashes with
  | [hash0; hash1] =>
    let pythonParts := strings_SplitN2 hash0 "|" in
    let txtParts := strings_SplitN2 hash1 "|" in
    match pythonParts, txtParts with
    | [p0; p1], [t0; t1] =>
      let pythonHash := strings_TrimSpace env p0 in
      let pythonExt := strings_TrimSpace env p1 in
      let txtHash := strings_TrimSpace env t0 in
      let txtExt := strings_TrimSpace env t1 in
      let pythonExt :=
        if negb (strings_HasSuffix pythonExt ".py") then ".py" else pythonExt in
      let txtExt :=
        if negb (strings_HasSuffix txtExt ".txt") then ".txt" else txtExt in
      match os_Getwd env with
      | inr err => http_Error ("Failed to get current directory: " +:+ err) 500
      | inl currentDir =>
      let pythonFilename := filepath_Join env currentDir (pythonHash +:+ pythonExt) in
      let txtFilename := filepath_Join env currentDir (txtHash +:+ txtExt) in
      match downloadFromIPFS env pythonHash pythonFilename with
      | Some err => http_Error ("Failed to download Python file: " +:+ err) 500
      | None =>
      match downloadFromIPFS env txtHash txtFilename with
      | Some err => http_Error ("Failed to download text file: " +:+ err) 500
      | None =>
      match executePythonFile env pythonFilename txtFilename with
      | inr err => http_Error ("Failed to execute Python file: " +:+ err) 500
      | inl result =>
      match removeFile env pythonFilename with
      | Some err => http_Error ("Failed to remove Python file: " +:+ err) 500
      | None =>
      match removeFile env txtFilename with
      | Some err => http_Error ("Failed to remove text file: " +:+ err) 500
      | None => mkResponse 200 "Hashes processed successfully"
      end end end end end end
    | _, _ => http_Error "Hashes must include file extensions" 400
    end
  | _ =>
    http_Error
      "Expected two hashes: one for the Python file and one for the text file"
      400
  end
  end.

(** ** Invariants of further statements *)

(** The pool is [A] less [3 * R] transactions, and every block being mined
    holds a group of three of [A]. *)
Definition batches_inv (w : World) (A : list Transaction) (R : nat) : Prop :=
  (3 * R <= length A)%nat
  /\ transactionPool (globals w) = drop (3 * R) A
  /\ Forall (fun g => forall b, attempt_block g = Some b -> batch_of A b)
            (goroutines w).

(** A search goroutine searches at the difficulty written in its block,
    and a goroutine about to commit holds a block with a valid proof. *)
Definition pow_inv (g : Goroutine) : Prop :=
  match g with
  | GSearch b d => Difficulty b = d
  | GCommit b => pow_ok b
  | _ => True
  end.

(** The tip is the block committed last, or the genesis tip if there is
    none. *)
Definition tip_is (committed_so_far : list Block) (s : State) : Prop :=
  match last committed_so_far with
  | Some c => previousBlockHash s = Hash c /\ currentBlock s = c
  | None => previousBlockHash s = "-1" /\ currentBlock s = zero_Block
  end.

Definition tree_inv (w : World) (H : list Block) : Prop :=
  tip_is H (globals w)
  /\ Forall (fun g => forall b, attempt_block g = Some b -> parent_in H b)
            (goroutines w).

(** The tip hash is [h], and the one attempt in flight, if any, is linked
    to it. *)
Definition linked (w : World) (h : string) : Prop :=
  previousBlockHash (globals w) = h
  /\ (in_flight w = [] \/ exists b, in_flight w = [b] /\ PrevHash b = h).

(** In a sequential run at most one attempt is unfinished.  [A] are the
    transactions added so far and [C] the batches committed so far, one
    after the other. *)
Definition seq_inv (w : World) (A C : list Transaction) : Prop :=
  let pool := transactionPool (globals w) in
  (unfinished w = [] /\ A = C ++ pool)
  \/ (exists b, unfinished w = [Mining b] /\ A = C ++ pool
                /\ (3 <= length pool)%nat /\ Transactions b = take 3 pool)
  \/ (unfinished w = [Removing] /\ (3 <= length pool)%nat
      /\ exists C', C = C' ++ take 3 pool /\ A = C' ++ pool).

Definition stages_of (g : Goroutine) : list Stage :=
  match stage g with Some st => [st] | None => [] end.

(** The difficulty a goroutine mines at is not negative. *)
Definition nonneg_goroutine (g : Goroutine) : Prop :=
  match g with
  | GMineBlock _ d | GSearch _ d => 0 <= d
  | _ => True
  end.

Definition nonneg_action (a : Action) : Prop :=
  match a with
  | GoMine _ d => 0 <= d
  | _ => True
  end.

Definition awaiting_broadcast (w : World) : list Block :=
  omap to_broadcast (goroutines w).

(** Mining goes on at difficulty 4. *)
Definition at_four (g : Goroutine) : Prop :=
  match g with
  | GMineBlock _ d => d = 4
  | GSearch b d => d = 4 /\ Difficulty b = 4
  | GCommit b => Difficulty b = 4
  | _ => True
  end.

(** An action other than a direct [go mineBlock]. *)
Definition by_request (a : Action) : Prop :=
  match a with
  | GoMine _ _ => False
  | _ => True
  end.

(** Three served requests of the client at 10.0.0.9, the third with the
    output 3952, and the mining they start; the search ends at its first
    candidate. *)
Definition env_3952 : Env :=
  mkEnv (fun s => s) (fun dir name => dir +:+ "/" +:+ name) (inl "/srv")
        (fun _ _ => None) (fun _ _ => inl "3952") (fun _ => None).

Definition run_requests : list Action :=
  [DoReceive env_ok request_ok; DoReceive env_ok request_ok;
   DoReceive env_3952 request_ok;
   Step 0 100 0;      (* mineBlock of the first request assembles the block *)
   Step 3 0 1;        (* the search returns nonce 0 *)
   Step 3 0 0].       (* commit *)

(** * Properties *)

(** Closed facts about concrete runs are settled by evaluation. *)
Ltac by_evaluation :=
  repeat match goal with |- _ /\ _ => split end; vm_compute; reflexivity.

(** ** The digest is SHA-256 *)

Example sha256_constants :
  length SHA256.K = 64%nat
  /\ nth 0 SHA256.K 0 = 0x428a2f98 /\ nth 1 SHA256.K 0 = 0x71374491
  /\ nth 63 SHA256.K 0 = 0xc67178f2
  /\ SHA256.h0 SHA256.init = 0x6a09e667 /\ SHA256.h7 SHA256.init = 0x5be0cd19.
Proof. repeat split. Qed.

Example sha256_empty :
  sha256_hex "" = "e3b0c44298fc1c149afbf4c8996fb92427ae41e4649b934ca495991b7852b855".
Proof. vm_compute. reflexivity. Qed.

Example sha256_abc :
  sha256_hex "abc" = "ba7816bf8f01cfea414140de5dae2223b00361a396177a9cb410ff61f20015ad".
Proof. vm_compute. reflexivity. Qed.

Example sha256_two_blocks :
  sha256_hex "abcdbcdecdefdefgefghfghighijhijkijkljklmklmnlmnomnopnopq"
  = "248d6a61d20638b8e5c026930c3e6039a33ce45964ff2167f6ecedd419db06c1".
Proof. vm_compute. reflexivity. Qed.

Lemma sha256_hex_length (s : string) : String.length (sha256_hex s) = 64%nat.
Proof.
  unfold sha256_hex, sprintf_x.
  destruct (SHA256.Sum256 (bytes_of_string s)). reflexivity.
Qed.

Lemma generateHash_length (block : Block) (nonce : Z) :
  String.length (generateHash block nonce) = 64%nat.
Proof. apply sha256_hex_length. Qed.

(** ** validProof *)

Lemma zeros_succ (n : nat) :
  Nat.iter (S n) (String.append "0") EmptyString
  = String "0" (Nat.iter n (String.append "0") EmptyString).
Proof. reflexivity. Qed.

Lemma prefix_zeros (n : nat) (h : string) :
  String.prefix (Nat.iter n (String.append "0") EmptyString) h
  = (n <=? leading_zeros h)%nat.
Proof.
  revert h. induction n as [|n IH]; intros h.
  - destruct h; reflexivity.
  - rewrite zeros_succ. destruct h as [|c h]; [reflexivity|].
    cbn [String.prefix leading_zeros].
    destruct (ascii_dec "0" c) as [<-|Hne].
    + cbn. apply IH.
    + destruct (Ascii.eqb_spec c "0") as [->|_]; [congruence|reflexivity].
Qed.

Lemma validProof_leading_zeros (h : string) (d : Z) :
  0 <= d -> validProof h d = Some (Z.to_nat d <=? leading_zeros h)%nat.
Proof.
  intros Hd. unfold validProof, strings_Repeat.
  destruct (Z.ltb_spec d 0) as [?|_]; [lia|].
  unfold strings_HasPrefix. now rewrite prefix_zeros.
Qed.

Lemma validProof_negative (h : string) (d : Z) : d < 0 -> validProof h d = None.
Proof.
  intros Hd. unfold validProof, strings_Repeat.
  destruct (Z.ltb_spec d 0) as [_|?]; [reflexivity|lia].
Qed.

Lemma leading_zeros_le_length (s : string) : (leading_zeros s <= String.length s)%nat.
Proof.
  induction s as [|c s IH]; cbn; [lia|].
  destruct (Ascii.eqb c "0"); lia.
Qed.



(** ** proofOfWork *)

Lemma wrap_int_id (x : Z) : min_int <= x <= max_int -> wrap_int x = x.
Proof.
  intros H. unfold wrap_int, min_int, max_int in *.
  rewrite Z.mod_small by lia. lia.
Qed.

(** The loop started at candidate [k]: what [fuel] iterations give, as long
    as the candidates stay below the wrap-around of [int]. *)
Lemma proofOfWork_loop_spec (block : Block) (d : Z) (fuel : nat) :
  0 <= d ->
  forall k : Z, 0 <= k -> k + Z.of_nat fuel <= max_int + 1 ->
  match proofOfWork_loop fuel block d k with
  | Returns n =>
      k <= n < k + Z.of_nat fuel /\ meets block d n
      /\ forall m, k <= m < n -> ~ meets block d m
  | Panics => False
  | OutOfFuel => forall m, k <= m < k + Z.of_nat fuel -> ~ meets block d m
  end.
Proof.
  intros Hd. induction fuel as [|fuel IH]; intros k Hk Hmax.
  - cbn. intros m Hm. lia.
  - cbn [proofOfWork_loop]. rewrite validProof_leading_zeros by assumption.
    destruct (Nat.leb_spec (Z.to_nat d) (leading_zeros (generateHash block k)))
      as [Hle|Hgt].
    + split; [lia|]. split; [exact Hle|]. intros m Hm. lia.
    + assert (Hk' : ~ meets block d k) by (unfold meets; lia).
      destruct fuel as [|fuel'].
      { cbn. intros m Hm. assert (m = k) as -> by lia. exact Hk'. }
      rewrite wrap_int_id by (unfold min_int, max_int in *; lia).
      specialize (IH (k + 1) ltac:(lia) ltac:(lia)).
      destruct (proofOfWork_loop (S fuel') block d (k + 1)) as [n| |].
      * destruct IH as (Hn & Hv & Hleast). split; [lia|]. split; [exact Hv|].
        intros m Hm. destruct (Z.eq_dec m k) as [->|Hne]; [exact Hk'|].
        apply Hleast. lia.
      * exact IH.
      * intros m Hm. destruct (Z.eq_dec m k) as [->|Hne]; [exact Hk'|].
        apply IH. lia.
Qed.

(** More fuel does not change a result. *)
Lemma proofOfWork_loop_mono (block : Block) (d : Z) (fuel fuel' : nat) (k n : Z) :
  (fuel <= fuel')%nat ->
  proofOfWork_loop fuel block d k = Returns n ->
  proofOfWork_loop fuel' block d k = Returns n.
Proof.
  revert fuel' k. induction fuel as [|fuel IH]; intros fuel' k Hle H.
  - discriminate.
  - destruct fuel' as [|fuel']; [lia|]. cbn [proofOfWork_loop] in *.
    destruct (validProof (generateHash block k) d) as [[|]|]; try assumption.
    apply IH; [lia|assumption].
Qed.

(** No digest has more than 64 leading zeros, so a difficulty above 64 is
    never met and the search goes on for ever. *)
Lemma proofOfWork_loop_unsatisfiable (block : Block) (d : Z) (fuel : nat) (k : Z) :
  64 < d -> proofOfWork_loop fuel block d k = OutOfFuel.
Proof.
  intros Hd. revert k. induction fuel as [|fuel IH]; intros k; [reflexivity|].
  cbn [proofOfWork_loop]. rewrite validProof_leading_zeros by lia.
  pose proof (leading_zeros_le_length (generateHash block k)) as Hl.
  rewrite generateHash_length in Hl.
  destruct (Nat.leb_spec (Z.to_nat d) (leading_zeros (generateHash block k)));
    [lia|apply IH].
Qed.

(** C6 (as amended): whenever some nonce in the range of [int] gives a
    digest with at least [d] leading ['0'] characters, [proofOfWork] tries the
    nonces 0, 1, 2, ... and returns the least such nonce; at [d = 0] it
    returns 0 on the first candidate; and for [d] above 64, the length of a
    digest, no nonce qualifies and it returns for no amount of fuel. *)
Theorem proofOfWork_returns_least_nonce :
  (forall (block : Block) (d n0 : Z),
      0 <= d -> 0 <= n0 <= max_int -> meets block d n0 ->
      exists n : Z,
        0 <= n <= n0 /\ meets block d n
        /\ (forall m, 0 <= m < n -> ~ meets block d m)
        /\ (forall fuel, (Z.to_nat n < fuel)%nat ->
                         proofOfWork fuel block d = Returns n)
        /\ (forall fuel, (fuel <= Z.to_nat n)%nat ->
                         proofOfWork fuel block d = OutOfFuel))
  /\ (forall (block : Block) (fuel : nat),
        proofOfWork (S fuel) block 0 = Returns 0)
  /\ (forall (block : Block) (d : Z) (fuel : nat),
        64 < d -> proofOfWork fuel block d = OutOfFuel).
Proof.
  split; [|split].
  - intros block d n0 Hd Hn0 Hmeets.
    pose proof (proofOfWork_loop_spec block d (S (Z.to_nat n0)) Hd 0
                  ltac:(lia) ltac:(unfold max_int in *; lia)) as Hspec.
    fold (proofOfWork (S (Z.to_nat n0)) block d) in Hspec.
    destruct (proofOfWork (S (Z.to_nat n0)) block d) as [n| |] eqn:Hrun.
    + destruct Hspec as (Hn & Hv & Hleast). exists n.
      split; [lia|]. split; [exact Hv|]. split; [exact Hleast|]. split.
      * intros fuel Hfuel.
        pose proof (proofOfWork_loop_spec block d (S (Z.to_nat n)) Hd 0
                      ltac:(lia) ltac:(unfold max_int in *; lia)) as Hs.
        fold (proofOfWork (S (Z.to_nat n)) block d) in Hs.
        destruct (proofOfWork (S (Z.to_nat n)) block d) as [n'| |] eqn:Hrun';
          [|contradiction|exfalso; apply (Hs n); [lia|exact Hv]].
        destruct Hs as (Hn' & Hv' & Hleast').
        assert (n' = n) as ->.
        { destruct (Z.lt_trichotomy n' n) as [Hlt|[Heq|Hgt]]; [|exact Heq|].
          - exfalso. apply (Hleast n'); [lia|exact Hv'].
          - lia. }
        unfold proofOfWork in *.
        eapply proofOfWork_loop_mono; [|exact Hrun']. lia.
      * intros fuel Hfuel.
        pose proof (proofOfWork_loop_spec block d fuel Hd 0
                      ltac:(lia) ltac:(unfold max_int in *; lia)) as Hs.
        fold (proofOfWork fuel block d) in Hs.
        destruct (proofOfWork fuel block d) as [n'| |];
          [|contradiction|reflexivity].
        destruct Hs as (Hn' & Hv' & _). exfalso.
        apply (Hleast n'); [lia|exact Hv'].
    + contradiction.
    + exfalso. apply (Hspec n0); [lia|exact Hmeets].
  - intros block fuel. unfold proofOfWork. cbn [proofOfWork_loop].
    rewrite validProof_leading_zeros by lia. reflexivity.
  - intros block d fuel Hd. now apply proofOfWork_loop_unsatisfiable.
Qed.

Lemma proofOfWork_returns_least_nonce_witness :
  exists n : Z,
    0 <= n <= 54 /\ meets block1 1 n
    /\ (forall m, 0 <= m < n -> ~ meets block1 1 m)
    /\ (forall fuel, (Z.to_nat n < fuel)%nat ->
                     proofOfWork fuel block1 1 = Returns n)
    /\ (forall fuel, (fuel <= Z.to_nat n)%nat ->
                     proofOfWork fuel block1 1 = OutOfFuel).
Proof.
  apply (proj1 proofOfWork_returns_least_nonce block1 1 54).
  - lia.
  - unfold max_int. lia.
  - vm_compute. lia.
Defined.

Example proofOfWork_block1 : proofOfWork 55 block1 1 = Returns 54.
Proof. vm_compute. reflexivity. Qed.

(** C6, as stated, fails: at difficulty 65 [proofOfWork] returns no nonce,
    whatever the number of iterations it is given. *)
Lemma proofOfWork_difficulty_65_never_returns :
  ~ exists (fuel : nat) (n : Z), proofOfWork fuel block1 65 = Returns n.
Proof.
  intros (fuel & n & H). unfold proofOfWork in H.
  rewrite proofOfWork_loop_unsatisfiable in H by lia. discriminate.
Qed.

(** ** generateHash *)

Lemma append_length (a b : string) :
  String.length (a +:+ b) = (String.length a + String.length b)%nat.
Proof. induction a as [|c a IH]; simpl; [reflexivity|now f_equal]. Qed.









(** ** Taking a batch *)


Lemma mineBlock_Some (miner : string) (d now : Z) (s : State) (b : Block) :
  mineBlock miner d now s = Some b ->
  (3 <= length (transactionPool s))%nat
  /\ Transactions b = firstn 3 (transactionPool s)
  /\ PrevHash b = previousBlockHash s /\ PrevCID b = previousBlockCID s
  /\ BlockNumber b = wrap_int (BlockNumber (currentBlock s) + 1)
  /\ Timestamp b = now /\ Creator b = miner /\ Difficulty b = d.
Proof.
  unfold mineBlock.
  destruct (Nat.leb_spec 3 (length (transactionPool s))); [|discriminate].
  intros [= <-]. cbn. repeat split; try reflexivity; lia.
Qed.

Lemma seal_fields (b : Block) (n : Z) :
  Transactions (seal b n) = Transactions b /\ PrevHash (seal b n) = PrevHash b
  /\ PrevCID (seal b n) = PrevCID b /\ BlockNumber (seal b n) = BlockNumber b
  /\ Timestamp (seal b n) = Timestamp b /\ Creator (seal b n) = Creator b
  /\ Difficulty (seal b n) = Difficulty b /\ Nonce (seal b n) = n
  /\ Hash (seal b n) = generateHash b n.
Proof. repeat split. Qed.



(** ** The request handler *)

Lemma strings_Split_length (s : string) (c : ascii) :
  length (strings_Split s c) = S (count_char c s).
Proof.
  induction s as [|c' s IH]; cbn [strings_Split count_char]; [reflexivity|].
  destruct (Ascii.eqb c' c); cbn [length]; [now rewrite IH|].
  destruct (strings_Split s c); cbn [length] in *; [discriminate|exact IH].
Qed.

Lemma append_cons (c : ascii) (a b : string) :
  String c a +:+ b = String c (a +:+ b).
Proof. reflexivity. Qed.

Lemma strings_Split_head (ip rest : string) (c : ascii) :
  count_char c ip = 0%nat ->
  strings_Split (ip +:+ String c rest) c = ip :: strings_Split rest c.
Proof.
  induction ip as [|c' ip IH].
  - intros _. change (EmptyString +:+ String c rest) with (String c rest).
    cbn [strings_Split]. now rewrite Ascii.eqb_refl.
  - rewrite append_cons. cbn [strings_Split count_char].
    destruct (Ascii.eqb c' c); [discriminate|]. intros H. now rewrite IH.
Qed.

Lemma strings_Split_single (s : string) (c : ascii) :
  count_char c s = 0%nat -> strings_Split s c = [s].
Proof.
  induction s as [|c' s IH]; cbn [strings_Split count_char]; [reflexivity|].
  destruct (Ascii.eqb c' c); [discriminate|]. intros H. now rewrite IH.
Qed.

Lemma cut_None (s : string) (c : ascii) :
  count_char c s = 0%nat -> cut s c = None.
Proof.
  induction s as [|c' s IH]; cbn [cut count_char]; [reflexivity|].
  destruct (Ascii.eqb c' c); [discriminate|]. intros H. now rewrite IH.
Qed.

Lemma strings_SplitN2_no_separator (s : string) (c : ascii) :
  count_char c s = 0%nat -> strings_SplitN2 s c = [s].
Proof. intros H. unfold strings_SplitN2. now rewrite cut_None. Qed.


(** What a request does to the world: nothing, or one transaction carrying
    the client's address appended to the pool and one goroutine
    [mineBlock(clientIP, 4)] started; the latter exactly on status 200. *)
Lemma handleReceive_effect (env : Env) (r : Request) (w : World) :
  (StatusCode (fst (handleReceive env r w)) <> 200
   /\ snd (handleReceive env r w) = w)
  \/ (StatusCode (fst (handleReceive env r w)) = 200
      /\ exists result,
          snd (handleReceive env r w)
          = mkWorld (addTransaction (mkTransaction (clientIP_of r) result) (globals w))
                    (goroutines w ++ [GMineBlock (clientIP_of r) 4])
                    (broadcasts w) (panicked w)).
Proof.
  unfold handleReceive.
  repeat case_match; cbn [fst snd StatusCode http_Error];
    try (left; split; [lia|reflexivity]).
  all: right; split; [reflexivity|]; eexists; reflexivity.
Qed.



(** An entry that has its ['|'] but an empty or foreign suffix is not
    rejected: the handler falls back on [.py] and [.txt]. *)
Example handleReceive_defaults_suffix :
  StatusCode (fst (handleReceive env_ok request_empty_suffix world_two)) = 200
  /\ transactionPool (globals (snd (handleReceive env_ok request_empty_suffix world_two)))
     = [t1; t2; mkTransaction "10.0.0.9" "42"].
Proof. split; reflexivity. Qed.



(** ** The chain tip *)

Lemma commitTip_fields (b : Block) (s : State) :
  previousBlockHash (commitTip b s) = Hash b
  /\ previousBlockCID (commitTip b s) = PrevCID b
  /\ currentBlock (commitTip b s) = b
  /\ transactionPool (commitTip b s) = transactionPool s.
Proof. repeat split. Qed.

Lemma cid_stuck_continue (w : World) (s : State) (i : nat) (g : Goroutine)
    (new : list Goroutine) :
  Forall (fun g => forall b, attempt_block g = Some b -> PrevCID b = "-1")
         (goroutines w) ->
  previousBlockCID s = "-1" ->
  (forall b, attempt_block g = Some b -> PrevCID b = "-1") ->
  Forall (fun g => forall b, attempt_block g = Some b -> PrevCID b = "-1") new ->
  cid_stuck (continue w s i g new).
Proof.
  intros Hgs Hs Hg Hnew. split; [exact Hs|]. cbn [continue goroutines].
  apply Forall_app. split; [|exact Hnew]. now apply Forall_insert.
Qed.

Lemma cid_stuck_step (i : nat) (now : Z) (fuel : nat) (w w' : World) :
  cid_stuck w -> step i now fuel w = Some w' -> cid_stuck w'.
Proof.
  intros [Hcid Hgs]. unfold step.
  destruct (panicked w); [discriminate|].
  destruct (goroutines w !! i) as [g|] eqn:Hi; [|discriminate].
  pose proof (Forall_lookup_1 _ _ _ _ Hgs Hi) as Hg.
  destruct g as [miner d|b d|b| |b|b|].
  - destruct (mineBlock miner d now (globals w)) as [b|] eqn:Hm; intros [= <-].
    + apply mineBlock_Some in Hm as (_ & _ & _ & Hb & _).
      apply cid_stuck_continue;
        [exact Hgs|exact Hcid|discriminate|].
      constructor; [|constructor]. intros b' [= <-]. congruence.
    + apply cid_stuck_continue;
        [exact Hgs|exact Hcid|discriminate|constructor].
  - destruct (proofOfWork fuel b d) as [n| |]; intros [= <-].
    + apply cid_stuck_continue; [exact Hgs|exact Hcid| |].
      * intros b' [= <-]. apply (Hg b). reflexivity.
      * constructor; [discriminate|constructor].
    + split; assumption.
  - intros [= <-]. apply cid_stuck_continue; [exact Hgs| |discriminate|].
    + apply (Hg b). reflexivity.
    + constructor; [discriminate|constructor].
  - destruct (shrinkPool (globals w)) as [s|] eqn:Hs; intros [= <-].
    + apply cid_stuck_continue; [exact Hgs| |discriminate|constructor].
      unfold shrinkPool in Hs.
      destruct (3 <=? length (transactionPool (globals w)))%nat; [|discriminate].
      injection Hs as <-. exact Hcid.
    + split; assumption.
  - intros [= <-].
    apply cid_stuck_continue; [exact Hgs|exact Hcid|discriminate|constructor].
  - intros [= <-].
    apply cid_stuck_continue; [exact Hgs|exact Hcid|discriminate|constructor].
  - discriminate.
Qed.

Lemma cid_stuck_act (a : Action) (w w' : World) :
  cid_stuck w -> act a w = Some w' -> cid_stuck w'.
Proof.
  intros Hw. unfold act. destruct (panicked w); [discriminate|].
  destruct a as [t|miner d|env r|i now fuel].
  - intros [= <-]. exact Hw.
  - intros [= <-]. destruct Hw as [Hcid Hgs]. split; [exact Hcid|].
    cbn [goroutines]. apply Forall_app. split; [exact Hgs|].
    constructor; [discriminate|constructor].
  - intros [= <-].
    destruct (handleReceive_effect env r w) as [(_ & ->)|(_ & result & ->)];
      [exact Hw|].
    destruct Hw as [Hcid Hgs]. split; [exact Hcid|].
    cbn [goroutines]. apply Forall_app. split; [exact Hgs|].
    constructor; [discriminate|constructor].
  - apply cid_stuck_step. exact Hw.
Qed.

Lemma cid_stuck_run (acts : list Action) (w w' : World) :
  cid_stuck w -> run acts w = Some w' -> cid_stuck w'.
Proof.
  revert w. induction acts as [|a acts IH]; intros w Hw; cbn [run].
  - intros [= <-]. exact Hw.
  - destruct (act a w) as [w1|] eqn:Ha; [|discriminate].
    apply IH. eapply cid_stuck_act; eassumption.
Qed.

(** C4: what the commit does.  It sets the tip hash to the hash of the
    committed block and [currentBlock] to that block, whose number is one
    more than the number seen at assembly (short of the wrap-around of
    [int]); but it sets the tip address to the block's PrevCID, the
    address of the tip it was assembled on.  So in every run from the
    start the tip address is "-1" for ever: it is never the address of the
    committed block. *)
Theorem commit_keeps_predecessor_address :
  (forall (b : Block) (s : State),
      previousBlockHash (commitTip b s) = Hash b
      /\ currentBlock (commitTip b s) = b
      /\ previousBlockCID (commitTip b s) = PrevCID b)
  /\ (forall (miner : string) (d now nonce : Z) (s0 s : State) (b : Block),
        mineBlock miner d now s0 = Some b ->
        BlockNumber (currentBlock s0) < max_int ->
        0 <= BlockNumber (currentBlock s0) ->
        BlockNumber (currentBlock (commitTip (seal b nonce) s))
        = BlockNumber (currentBlock s0) + 1
        /\ previousBlockCID (commitTip (seal b nonce) s) = previousBlockCID s0)
  /\ (forall (acts : list Action) (w : World),
        run acts init_World = Some w -> previousBlockCID (globals w) = "-1").
Proof.
  split; [|split].
  - intros b s. repeat split.
  - intros miner d now nonce s0 s b Hm Hmax Hmin.
    apply mineBlock_Some in Hm as (_ & _ & _ & Hcid & Hnum & _).
    destruct (commitTip_fields (seal b nonce) s) as (_ & -> & -> & _).
    destruct (seal_fields b nonce) as (_ & _ & -> & -> & _).
    rewrite Hnum, Hcid. split; [|reflexivity].
    apply wrap_int_id. unfold min_int, max_int in *. lia.
  - intros acts w Hrun.
    apply (cid_stuck_run acts init_World w); [|exact Hrun].
    split; [reflexivity|constructor].
Qed.

Lemma commit_keeps_predecessor_address_witness :
  previousBlockCID (commitTip (seal block1 54) init_State) = "-1"
  /\ BlockNumber (currentBlock (commitTip (seal block1 54) init_State)) = 1
  /\ forall w, run run_commit init_World = Some w ->
               previousBlockCID (globals w) = "-1".
Proof.
  destruct commit_keeps_predecessor_address as (_ & H2 & H3).
  destruct (H2 "a" 1 100 54 (mkState [t1; t2; t3] zero_Block "-1" "-1")
               init_State block1 eq_refl) as (Hn & Hc).
  - unfold max_int. cbn. lia.
  - cbn. lia.
  - split; [exact Hc|]. split; [exact Hn|]. intros w. apply H3.
Defined.

Example run_commit_tip :
  exists w, run run_commit init_World = Some w
    /\ currentBlock (globals w) = sealed1
    /\ previousBlockHash (globals w) = Hash sealed1
    /\ previousBlockCID (globals w) = "-1".
Proof. eexists. split; [vm_compute; reflexivity|]. by_evaluation. Qed.

(** ** Publication *)

(** C2: the code at a mining attempt.  The commit step is always enabled
    and makes the mined block the tip, whatever has become of the upload;
    the goroutine of [uploadBlockToIPFS] stores nothing and reports nothing;
    and in [run_commit] the tip is the mined block while that goroutine has
    not even run. *)
Theorem tip_advances_without_publication :
  (forall (w : World) (i : nat) (b : Block) (now : Z) (fuel : nat),
      panicked w = false -> goroutines w !! i = Some (GCommit b) ->
      exists w', step i now fuel w = Some w'
        /\ previousBlockHash (globals w') = Hash b
        /\ currentBlock (globals w') = b)
  /\ (forall (w w' : World) (i : nat) (b : Block) (now : Z) (fuel : nat),
        goroutines w !! i = Some (GUpload b) -> step i now fuel w = Some w' ->
        w' = mkWorld (globals w) (<[i := GDone]> (goroutines w))
                     (broadcasts w) (panicked w))
  /\ (exists w, run run_commit init_World = Some w
        /\ currentBlock (globals w) = sealed1
        /\ previousBlockHash (globals w) = Hash sealed1
        /\ goroutines w !! 2%nat = Some (GUpload sealed1)).
Proof.
  split; [|split].
  - intros w i b now fuel Hp Hi. unfold step. rewrite Hp, Hi.
    eexists. split; [reflexivity|]. split; reflexivity.
  - intros w w' i b now fuel Hi. unfold step. rewrite Hi.
    destruct (panicked w) eqn:Hp; [discriminate|]. intros [= <-].
    unfold continue, uploadBlockToIPFS. rewrite app_nil_r, Hp. reflexivity.
  - eexists. split; [vm_compute; reflexivity|]. by_evaluation.
Qed.

Lemma tip_advances_without_publication_witness :
  exists w',
    step 1 0 0 (mkWorld init_State [GUpload sealed1; GCommit sealed1] [] false)
    = Some w'
    /\ previousBlockHash (globals w') = Hash sealed1
    /\ currentBlock (globals w') = sealed1.
Proof.
  apply (proj1 tip_advances_without_publication
           (mkWorld init_State [GUpload sealed1; GCommit sealed1] [] false)
           1%nat sealed1 0 0%nat); reflexivity.
Defined.

(** ** Batches across attempts *)

(** C1: the code at two overlapping attempts.  In [run_overlap] both
    attempts take [t1; t2; t3]: the batches of the committed blocks, in
    commit order, are not a prefix of the transactions added, and the
    second removal panics on a pool of one.  In [run_overlap6] nothing
    panics: the same batch is mined twice while [t4; t5; t6] leave the
    pool without ever entering a block. *)
Theorem overlapping_attempts_share_a_batch :
  (exists w, run run_overlap init_World = Some w
     /\ added run_overlap init_World = [t1; t2; t3; t4]
     /\ map Transactions (commits run_overlap init_World)
        = [[t1; t2; t3]; [t1; t2; t3]]
     /\ map Transactions (broadcasts w) = [[t1; t2; t3]; [t1; t2; t3]]
     /\ transactionPool (globals w) = [t4]
     /\ panicked w = true)
  /\ ~ (concat (map Transactions (commits run_overlap init_World))
          `prefix_of` added run_overlap init_World)
  /\ (exists w, run run_overlap6 init_World = Some w
        /\ added run_overlap6 init_World = [t1; t2; t3; t4; t5; t6]
        /\ map Transactions (commits run_overlap6 init_World)
           = [[t1; t2; t3]; [t1; t2; t3]]
        /\ transactionPool (globals w) = []
        /\ in_flight w = []
        /\ panicked w = false).
Proof.
  split; [|split].
  - eexists. split; [vm_compute; reflexivity|]. by_evaluation.
  - assert (concat (map Transactions (commits run_overlap init_World))
            = [t1; t2; t3; t1; t2; t3]) as -> by by_evaluation.
    assert (added run_overlap init_World = [t1; t2; t3; t4]) as -> by by_evaluation.
    intros [k Hk]. discriminate Hk.
  - eexists. split; [vm_compute; reflexivity|]. by_evaluation.
Qed.

(** ** Block numbers *)

(** C5, as stated, fails: in [run_race] the attempts a and b both snapshot
    the genesis tip and both commit as block 1 (neither is rejected), and
    the tip number, 2 after c's commit, is back at 1 after b's. *)
Lemma racing_commits_repeat_a_number :
  (exists w, run run_race init_World = Some w /\ tipNumber w = 1
             /\ panicked w = false)
  /\ map BlockNumber (commits run_race init_World) = [1; 2; 1]
  /\ (exists w, run (firstn 13 run_race) init_World = Some w /\ tipNumber w = 2).
Proof.
  split; [|split].
  - eexists. split; [vm_compute; reflexivity|]. by_evaluation.
  - by_evaluation.
  - eexists. split; [vm_compute; reflexivity|]. by_evaluation.
Qed.

Lemma in_flight_continue (w : World) (s : State) (i : nat) (g0 g : Goroutine)
    (new : list Goroutine) :
  goroutines w !! i = Some g0 ->
  exists pre post,
    in_flight w = pre ++ blocks_of g0 ++ post
    /\ in_flight (continue w s i g new)
       = pre ++ blocks_of g ++ post ++ omap attempt_block new.
Proof.
  intros Hi. unfold in_flight. cbn [continue goroutines].
  exists (omap attempt_block (take i (goroutines w))),
         (omap attempt_block (drop (S i) (goroutines w))).
  pose proof (lookup_lt_Some _ _ _ Hi) as Hlt.
  assert (forall g' l, omap attempt_block (g' :: l)
                       = blocks_of g' ++ omap attempt_block l) as Hcons.
  { intros g' l. unfold blocks_of. cbn. destruct (attempt_block g'); reflexivity. }
  rewrite insert_take_drop by exact Hlt.
  rewrite <- (take_drop_middle _ _ _ Hi) at 1.
  rewrite !omap_app, !Hcons, <- !app_assoc. split; reflexivity.
Qed.

Lemma one_in_flight (pre post : list Block) (b b' : Block) :
  pre ++ [b] ++ post = [b'] -> pre = [] /\ post = [] /\ b = b'.
Proof.
  destruct pre as [|p pre]; cbn.
  - intros [= -> ->]. repeat split.
  - intros [= _ H]. destruct pre; discriminate H.
Qed.

Lemma tipNumber_continue (w : World) (s : State) (i : nat) (g : Goroutine)
    (new : list Goroutine) :
  tipNumber (continue w s i g new) = BlockNumber (currentBlock s).
Proof. reflexivity. Qed.

Lemma shrinkPool_currentBlock (s s' : State) :
  shrinkPool s = Some s' -> currentBlock s' = currentBlock s.
Proof.
  unfold shrinkPool.
  destruct (3 <=? length (transactionPool s))%nat; [|discriminate].
  now intros [= <-].
Qed.

(** A serial step keeps the tip and the attempt in flight attached; if it
    is a commit, the block it commits has number [k + 1]. *)
Lemma attached_step (i : nat) (now : Z) (fuel : nat) (w w' : World) (k : Z) :
  attached w k -> 0 <= k < max_int ->
  serial (Step i now fuel) w = true ->
  step i now fuel w = Some w' ->
  (committed (Step i now fuel) w = [] /\ attached w' k)
  \/ (exists b, committed (Step i now fuel) w = [b] /\ BlockNumber b = k + 1
                /\ attached w' (k + 1)).
Proof.
  intros [Htip Hfl] Hk. unfold serial, step, committed.
  destruct (panicked w); [discriminate|].
  destruct (goroutines w !! i) as [g|] eqn:Hi; [|discriminate].
  destruct g as [miner d|b d|b| |b|b|]; intros Hser Hstep.
  - apply bool_decide_eq_true in Hser. left. split; [reflexivity|].
    destruct (mineBlock miner d now (globals w)) as [b|] eqn:Hm;
      injection Hstep as <-;
      destruct (in_flight_continue w (globals w) i _ GDone
                  (match mineBlock miner d now (globals w) with
                   | Some b => [GSearch b d] | None => [] end) Hi)
        as (pre & post & H0 & H1);
      rewrite Hser in H0; symmetry in H0;
      apply app_eq_nil in H0 as [-> H0]; apply app_eq_nil in H0 as [_ ->];
      rewrite Hm in H1; (split; [exact Htip|]).
    + right. exists b. split; [rewrite H1; reflexivity|].
      apply mineBlock_Some in Hm as (_ & _ & _ & _ & Hn & _).
      rewrite Hn. unfold tipNumber in Htip. rewrite Htip.
      apply wrap_int_id. unfold min_int, max_int in *. lia.
    + left. rewrite H1. reflexivity.
  - left. split; [reflexivity|].
    destruct (proofOfWork fuel b d) as [n| |]; [| |discriminate];
      injection Hstep as <-.
    + destruct (in_flight_continue w (globals w) i _ (GCommit (seal b n))
                  [GUpload (seal b n)] Hi) as (pre & post & H0 & H1).
      split; [exact Htip|]. right. exists (seal b n).
      destruct Hfl as [Hfl|(b' & Hfl & Hb')]; rewrite Hfl in H0; symmetry in H0.
      * apply app_eq_nil in H0 as [_ H0]. discriminate H0.
      * apply one_in_flight in H0 as (-> & -> & ->).
        split; [rewrite H1; reflexivity|]. exact Hb'.
    + split; [exact Htip|exact Hfl].
  - right. exists b. split; [reflexivity|]. injection Hstep as <-.
    destruct (in_flight_continue w (commitTip b (globals w)) i _ GShrink
                [GBroadcast b] Hi) as (pre & post & H0 & H1).
    destruct Hfl as [Hfl|(b' & Hfl & Hb')]; rewrite Hfl in H0; symmetry in H0.
    + apply app_eq_nil in H0 as [_ H0]. discriminate H0.
    + apply one_in_flight in H0 as (-> & -> & ->).
      split; [exact Hb'|]. split; [exact Hb'|]. left. rewrite H1. reflexivity.
  - left. split; [reflexivity|].
    destruct (shrinkPool (globals w)) as [s|] eqn:Hs; injection Hstep as <-.
    + destruct (in_flight_continue w s i _ GDone [] Hi) as (pre & post & H0 & H1).
      split.
      * rewrite tipNumber_continue, (shrinkPool_currentBlock _ _ Hs). exact Htip.
      * rewrite H1. cbn [blocks_of attempt_block omap app] in *.
        rewrite app_nil_r. rewrite <- H0. exact Hfl.
    + split; [exact Htip|exact Hfl].
  - left. split; [reflexivity|]. injection Hstep as <-.
    destruct (in_flight_continue (uploadBlockToIPFS b w) (globals w) i _ GDone []
                Hi) as (pre & post & H0 & H1).
    split; [exact Htip|]. rewrite H1.
    cbn [blocks_of attempt_block omap app] in *.
    rewrite app_nil_r. unfold uploadBlockToIPFS in H0. rewrite <- H0. exact Hfl.
  - left. split; [reflexivity|]. injection Hstep as <-.
    destruct (in_flight_continue (broadcastBlock b w) (globals w) i _ GDone []
                Hi) as (pre & post & H0 & H1).
    split; [exact Htip|]. rewrite H1.
    cbn [blocks_of attempt_block omap app] in *.
    rewrite app_nil_r. change (in_flight (broadcastBlock b w)) with (in_flight w) in H0.
    rewrite <- H0. exact Hfl.
  - discriminate.
Qed.

Lemma attached_act (a : Action) (w w' : World) (k : Z) :
  attached w k -> 0 <= k < max_int ->
  serial a w = true -> act a w = Some w' ->
  (committed a w = [] /\ attached w' k)
  \/ (exists b, committed a w = [b] /\ BlockNumber b = k + 1
                /\ attached w' (k + 1)).
Proof.
  intros Hw Hk Hser. unfold act. destruct (panicked w) eqn:Hp; [discriminate|].
  destruct a as [t|miner d|env r|i now fuel].
  - intros [= <-]. left. split; [reflexivity|exact Hw].
  - intros [= <-]. left. split; [reflexivity|].
    destruct Hw as [Htip Hfl]. split; [exact Htip|].
    unfold in_flight in *. cbn [goroutines]. rewrite omap_app. cbn.
    now rewrite app_nil_r.
  - intros [= <-]. left. split; [reflexivity|].
    destruct (handleReceive_effect env r w) as [(_ & ->)|(_ & result & ->)];
      [exact Hw|].
    destruct Hw as [Htip Hfl]. split; [exact Htip|].
    unfold in_flight in *. cbn [goroutines]. rewrite omap_app. cbn.
    now rewrite app_nil_r.
  - intros Hstep. eapply attached_step; eassumption.
Qed.

(** Along a serial run the commits claim the numbers [k + 1], [k + 2], ...
    in order, and the tip number is the last one claimed. *)
Lemma serial_run_numbers (acts : list Action) :
  forall (w w' : World) (k : Z),
    attached w k -> 0 <= k -> k + Z.of_nat (length acts) <= max_int ->
    run_serial acts w = Some w' ->
    attached w' (k + Z.of_nat (length (commits acts w)))
    /\ forall (j : nat) (b : Block),
        commits acts w !! j = Some b -> BlockNumber b = k + 1 + Z.of_nat j.
Proof.
  induction acts as [|a acts IH]; intros w w' k Hw Hk Hmax; cbn [run_serial commits].
  - intros [= <-]. cbn. rewrite Z.add_0_r. split; [exact Hw|]. intros j b H. discriminate H.
  - cbn [length] in Hmax.
    destruct (serial a w) eqn:Hser; [|discriminate].
    destruct (act a w) as [w1|] eqn:Ha; [|discriminate]. intros Hrun.
    destruct (attached_act a w w1 k Hw ltac:(lia) Hser Ha)
      as [(Hc & Hw1)|(b0 & Hc & Hb0 & Hw1)]; rewrite Hc.
    + destruct (IH w1 w' k Hw1 Hk ltac:(lia) Hrun) as [Hatt Hnum].
      cbn [app]. split; assumption.
    + destruct (IH w1 w' (k + 1) Hw1 ltac:(lia) ltac:(lia) Hrun) as [Hatt Hnum].
      cbn [app length]. split.
      * replace (k + Z.of_nat (S (length (commits acts w1))))
          with (k + 1 + Z.of_nat (length (commits acts w1))) by lia.
        exact Hatt.
      * intros [|j] b; cbn.
        -- intros [= <-]. lia.
        -- intros H. rewrite (Hnum j b H). lia.
Qed.

Lemma length_committed (a : Action) (w : World) :
  (length (committed a w) <= 1)%nat.
Proof.
  destruct a as [| | |i now fuel]; cbn; try lia.
  destruct (goroutines w !! i) as [[]|]; cbn; lia.
Qed.

Lemma length_commits_le (acts : list Action) (w : World) :
  (length (commits acts w) <= length acts)%nat.
Proof.
  revert w. induction acts as [|a acts IH]; intros w; cbn [commits length]; [lia|].
  destruct (act a w) as [w1|]; cbn [length]; [|lia].
  rewrite length_app. pose proof (length_committed a w). specialize (IH w1). lia.
Qed.

Lemma run_serial_app (acts1 acts2 : list Action) (w : World) :
  run_serial (acts1 ++ acts2) w
  = match run_serial acts1 w with
    | Some w1 => run_serial acts2 w1
    | None => None
    end.
Proof.
  revert w. induction acts1 as [|a acts1 IH]; intros w; cbn [app run_serial];
    [reflexivity|].
  destruct (serial a w); [|reflexivity].
  destruct (act a w); [apply IH|reflexivity].
Qed.

(** C5 (as amended): in a serial run, where [mineBlock] assembles a block
    only while no other attempt is in flight, the j-th commit claims block
    number j, the tip number is the number of commits made, and so the tip
    number never decreases and no two commits claim the same number (runs
    shorter than the range of [int]).  The commit itself checks nothing: it
    is always enabled and sets the tip number to that of its block. *)
Theorem serial_commits_number_consecutively :
  (forall (acts : list Action) (w : World),
      run_serial acts init_World = Some w ->
      Z.of_nat (length acts) <= max_int ->
      tipNumber w = Z.of_nat (length (commits acts init_World))
      /\ forall (j : nat) (b : Block),
          commits acts init_World !! j = Some b ->
          BlockNumber b = Z.of_nat j + 1)
  /\ (forall (acts1 acts2 : list Action) (w1 w2 : World),
        run_serial acts1 init_World = Some w1 ->
        run_serial acts2 w1 = Some w2 ->
        Z.of_nat (length (acts1 ++ acts2)) <= max_int ->
        tipNumber w1 <= tipNumber w2)
  /\ (forall (w : World) (i : nat) (b : Block) (now : Z) (fuel : nat),
        panicked w = false -> goroutines w !! i = Some (GCommit b) ->
        exists w', step i now fuel w = Some w' /\ tipNumber w' = BlockNumber b).
Proof.
  assert (attached init_World 0) as Hinit by (split; [reflexivity|left; reflexivity]).
  split; [|split].
  - intros acts w Hrun Hlen.
    destruct (serial_run_numbers acts init_World w 0 Hinit ltac:(lia) ltac:(lia) Hrun)
      as [[Htip _] Hnum].
    split; [rewrite Htip; lia|]. intros j b H. rewrite (Hnum j b H). lia.
  - intros acts1 acts2 w1 w2 H1 H2 Hlen. rewrite length_app in Hlen.
    destruct (serial_run_numbers acts1 init_World w1 0 Hinit ltac:(lia) ltac:(lia) H1)
      as [Hatt1 _].
    pose proof (length_commits_le acts1 init_World) as Hc1.
    destruct (serial_run_numbers acts2 w1 w2 _ Hatt1 ltac:(lia) ltac:(lia) H2)
      as [[Htip2 _] _].
    destruct Hatt1 as [Htip1 _]. lia.
  - intros w i b now fuel Hp Hi. unfold step. rewrite Hp, Hi.
    eexists. split; reflexivity.
Qed.

Lemma serial_commits_number_consecutively_witness :
  tipNumber world_commit = Z.of_nat (length (commits run_commit init_World))
  /\ forall (j : nat) (b : Block),
      commits run_commit init_World !! j = Some b ->
      BlockNumber b = Z.of_nat j + 1.
Proof.
  apply (proj1 serial_commits_number_consecutively run_commit world_commit).
  - vm_compute. reflexivity.
  - vm_compute. discriminate.
Defined.

Example run_commit_is_serial :
  exists w, run_serial run_commit init_World = Some w /\ tipNumber w = 1
    /\ map BlockNumber (commits run_commit init_World) = [1].
Proof. eexists. split; [vm_compute; reflexivity|]. by_evaluation. Qed.

Example run_race_is_not_serial : run_serial run_race init_World = None.
Proof. vm_compute. reflexivity. Qed.

(** * Further properties *)

(** ** More on the request handler *)

Lemma substring_all (s : string) : String.substring 0 (String.length s) s = s.
Proof. induction s as [|c s IH]; cbn; [reflexivity|now rewrite IH]. Qed.

Lemma substring_skip (p s : string) (m : nat) :
  String.substring (String.length p) m (p +:+ s) = String.substring 0 m s.
Proof. induction p as [|c p IH]; [reflexivity|]. rewrite append_cons. cbn. exact IH. Qed.

Lemma substring_split (s : string) (k : nat) :
  (k <= String.length s)%nat ->
  s = String.substring 0 k s +:+ String.substring k (String.length s - k) s.
Proof.
  revert k. induction s as [|c s IH]; intros [|k] Hk; cbn in Hk; try lia.
  - reflexivity.
  - rewrite Nat.sub_0_r, substring_all. reflexivity.
  - cbn [String.substring String.length Nat.sub]. rewrite append_cons.
    f_equal. apply IH. lia.
Qed.

Lemma strings_HasSuffix_app (p suf : string) :
  strings_HasSuffix (p +:+ suf) suf = true.
Proof.
  unfold strings_HasSuffix. rewrite append_length.
  destruct (Nat.leb_spec (String.length suf) (String.length p + String.length suf));
    [|lia].
  replace (String.length p + String.length suf - String.length suf)%nat
    with (String.length p) by lia.
  rewrite substring_skip, substring_all. apply String.eqb_refl.
Qed.

Lemma strings_HasSuffix_inv (s suf : string) :
  strings_HasSuffix s suf = true -> exists p, s = p +:+ suf.
Proof.
  unfold strings_HasSuffix.
  destruct (Nat.leb_spec (String.length suf) (String.length s)) as [Hle|];
    [|discriminate].
  intros H. apply String.eqb_eq in H.
  exists (String.substring 0 (String.length s - String.length suf) s).
  pose proof (substring_split s (String.length s - String.length suf)
                ltac:(lia)) as Hs.
  replace (String.length s - (String.length s - String.length suf))%nat
    with (String.length suf) in Hs by lia.
  rewrite H in Hs. exact Hs.
Qed.

Lemma append_assoc (a b c : string) : (a +:+ b) +:+ c = a +:+ b +:+ c.
Proof. induction a as [|x a IH]; [reflexivity|]. rewrite !append_cons. now f_equal. Qed.

Lemma strings_HasSuffix_prepend (h e suf : string) :
  strings_HasSuffix e suf = true -> strings_HasSuffix (h +:+ e) suf = true.
Proof.
  intros H. apply strings_HasSuffix_inv in H as [p ->].
  rewrite <- append_assoc. apply strings_HasSuffix_app.
Qed.

(** The extension the handler settles on ends as required. *)
Lemma default_ext_suffix (ext suf : string) :
  strings_HasSuffix (if negb (strings_HasSuffix ext suf) then suf else ext) suf
  = true.
Proof.
  destruct (strings_HasSuffix ext suf) eqn:H; cbn [negb]; [exact H|].
  apply (strings_HasSuffix_app EmptyString suf).
Qed.

(** X1: a request either fails and leaves the world as it was, or is
    served and then appends to the pool exactly one transaction, whose ID is
    the client's address and whose Data is the output of the execution the
    handler ran, and starts one goroutine; the chain tip, the broadcasts and
    the transactions and goroutines already there are never touched. *)
Theorem handleReceive_all_or_nothing (env : Env) (r : Request) (w : World) :
  (StatusCode (fst (handleReceive env r w)) <> 200
   /\ snd (handleReceive env r w) = w)
  \/ (StatusCode (fst (handleReceive env r w)) = 200
      /\ exists pythonFilename txtFilename result,
          In (IO_Execute pythonFilename txtFilename) (handleReceive_io env r)
          /\ executePythonFile env pythonFilename txtFilename = inl result
          /\ snd (handleReceive env r w)
             = mkWorld (mkState (transactionPool (globals w)
                                   ++ [mkTransaction (clientIP_of r) result])
                                (currentBlock (globals w))
                                (previousBlockCID (globals w))
                                (previousBlockHash (globals w)))
                       (goroutines w ++ [GMineBlock (clientIP_of r) 4])
                       (broadcasts w) (panicked w)).
Proof.
  unfold handleReceive, handleReceive_io.
  repeat case_match; cbn [fst snd StatusCode http_Error];
    try (left; split; [lia|reflexivity]).
  all: right; split; [reflexivity|]; do 3 eexists;
    (split; [|split; [eassumption|reflexivity]]);
    cbn; tauto.
Qed.

(** X2: a request with another method than POST, with an unreadable body or
    with a malformed body is turned down (405, 500, 400) before the handler
    makes any call to the file system, to IPFS or to Python. *)
Theorem handleReceive_rejects_before_io (env : Env) (r : Request) (w : World) :
  (Method r <> "POST" ->
   handleReceive_io env r = []
   /\ StatusCode (fst (handleReceive env r w)) = 405)
  /\ (forall err, Method r = "POST" -> Body r = inr err ->
      handleReceive_io env r = []
      /\ StatusCode (fst (handleReceive env r w)) = 500)
  /\ (forall body, Body r = inl body -> malformed body ->
      handleReceive_io env r = []).
Proof.
  split; [|split].
  - intros Hm. unfold handleReceive, handleReceive_io.
    destruct (String.eqb_spec (Method r) "POST"); [contradiction|].
    split; reflexivity.
  - intros err Hm Hb. unfold handleReceive, handleReceive_io. rewrite Hm, Hb.
    split; reflexivity.
  - intros body Hb Hmal. unfold handleReceive_io. rewrite Hb.
    destruct (negb (Method r =? "POST")%string); [reflexivity|].
    pose proof (strings_Split_length body ",") as Hlen.
    destruct Hmal as [Hcount|(h0 & h1 & -> & Hc0 & Hc1 & Hentry)].
    + destruct (strings_Split body ",") as [|x0 [|x1 [|x2 xs]]];
        cbn [length] in Hlen; try reflexivity. lia.
    + change ("," +:+ h1) with (String "," h1).
      rewrite (strings_Split_head h0 h1 "," Hc0).
      rewrite (strings_Split_single h1 "," Hc1).
      destruct Hentry as [H0|H1].
      * rewrite (strings_SplitN2_no_separator h0) by exact H0. reflexivity.
      * rewrite (strings_SplitN2_no_separator h1) by exact H1.
        destruct (strings_SplitN2 h0 "|") as [|p0 [|p1 [|p2 ps]]]; reflexivity.
Qed.

Lemma handleReceive_rejects_before_io_witness :
  handleReceive_io env_ok (mkRequest "GET" "10.0.0.9:51000" (inl "QmProgram|.py,QmInput|.txt")) = []
  /\ handleReceive_io env_ok (mkRequest "POST" "10.0.0.9:51000" (inr "EOF")) = []
  /\ handleReceive_io env_ok request_no_suffix = [].
Proof.
  split; [|split].
  - apply (proj1 (handleReceive_rejects_before_io env_ok
                    (mkRequest "GET" "10.0.0.9:51000" (inl "QmProgram|.py,QmInput|.txt"))
                    world_two)).
    discriminate.
  - apply (proj1 (proj2 (handleReceive_rejects_before_io env_ok
                    (mkRequest "POST" "10.0.0.9:51000" (inr "EOF")) world_two))
             "EOF"); reflexivity.
  - apply (proj2 (proj2 (handleReceive_rejects_before_io env_ok request_no_suffix
                           world_two)) "QmProgram,QmInput|.txt").
    + reflexivity.
    + right. exists "QmProgram", "QmInput|.txt".
      split; [reflexivity|]. split; [reflexivity|]. split; [reflexivity|].
      left. reflexivity.
Defined.

(** X3: the handler stops at its first failing call.  It executes only a
    pair of files it has downloaded without error, and it removes a file
    only after an execution that succeeded: when a download or the
    execution fails, what has been downloaded stays on disk. *)
Theorem handleReceive_io_order (env : Env) (r : Request) :
  (forall pythonFilename txtFilename,
      In (IO_Execute pythonFilename txtFilename) (handleReceive_io env r) ->
      exists pythonHash txtHash,
        In (IO_Download pythonHash pythonFilename) (handleReceive_io env r)
        /\ In (IO_Download txtHash txtFilename) (handleReceive_io env r)
        /\ downloadFromIPFS env pythonHash pythonFilename = None
        /\ downloadFromIPFS env txtHash txtFilename = None)
  /\ (forall filename,
        In (IO_Remove filename) (handleReceive_io env r) ->
        exists pythonFilename txtFilename result,
          In (IO_Execute pythonFilename txtFilename) (handleReceive_io env r)
          /\ executePythonFile env pythonFilename txtFilename = inl result
          /\ (filename = pythonFilename
              \/ filename = txtFilename /\ removeFile env pythonFilename = None)).
Proof.
  unfold handleReceive_io. split.
  - intros pf tf. repeat case_match; cbn [In]; intros Hin;
      repeat (destruct Hin as [Hin|Hin]; try discriminate Hin); try contradiction;
      injection Hin as <- <-; do 2 eexists;
      (split; [|split; [|split; eassumption]]); cbn [In]; eauto 10.
  - intros f. repeat case_match; cbn [In]; intros Hin;
      repeat (destruct Hin as [Hin|Hin]; try discriminate Hin); try contradiction;
      injection Hin as <-; do 3 eexists;
      (split; [|split; [eassumption|]]); cbn [In]; eauto 10.
Qed.

Lemma handleReceive_io_order_witness :
  (exists pythonHash txtHash,
      In (IO_Download pythonHash "/srv/QmProgram.py") (handleReceive_io env_ok request_ok)
      /\ In (IO_Download txtHash "/srv/QmInput.txt") (handleReceive_io env_ok request_ok)
      /\ downloadFromIPFS env_ok pythonHash "/srv/QmProgram.py" = None
      /\ downloadFromIPFS env_ok txtHash "/srv/QmInput.txt" = None)
  /\ (exists pythonFilename txtFilename result,
        In (IO_Execute pythonFilename txtFilename) (handleReceive_io env_ok request_ok)
        /\ executePythonFile env_ok pythonFilename txtFilename = inl result
        /\ ("/srv/QmInput.txt" = pythonFilename
            \/ "/srv/QmInput.txt" = txtFilename
               /\ removeFile env_ok pythonFilename = None)).
Proof.
  split.
  - apply (proj1 (handleReceive_io_order env_ok request_ok)
             "/srv/QmProgram.py" "/srv/QmInput.txt").
    cbn. tauto.
  - apply (proj2 (handleReceive_io_order env_ok request_ok) "/srv/QmInput.txt").
    cbn. tauto.
Defined.

(** X4: when a request is served, the handler has made exactly six calls:
    the working directory, the two downloads, the execution of the first
    downloaded file on the second, and the removal of both.  The program is
    stored under a name that starts with its hash and ends in [.py], the
    input under one that starts with its hash and ends in [.txt], whatever
    suffixes the request gave. *)
Theorem handleReceive_served_io (env : Env) (r : Request) (w : World) :
  StatusCode (fst (handleReceive env r w)) = 200 ->
  exists currentDir pythonHash pythonExt txtHash txtExt,
    os_Getwd env = inl currentDir
    /\ strings_HasSuffix (pythonHash +:+ pythonExt) ".py" = true
    /\ strings_HasSuffix (txtHash +:+ txtExt) ".txt" = true
    /\ let pythonFilename := filepath_Join env currentDir (pythonHash +:+ pythonExt) in
       let txtFilename := filepath_Join env currentDir (txtHash +:+ txtExt) in
       handleReceive_io env r
       = [IO_Getwd; IO_Download pythonHash pythonFilename;
          IO_Download txtHash txtFilename;
          IO_Execute pythonFilename txtFilename;
          IO_Remove pythonFilename; IO_Remove txtFilename].
Proof.
  unfold handleReceive, handleReceive_io.
  repeat case_match; cbn [fst snd StatusCode http_Error]; intros Hs;
    try discriminate Hs.
  all: do 5 eexists; split; [reflexivity|];
    (split; [|split; [|reflexivity]]);
    apply strings_HasSuffix_prepend;
    first [ reflexivity
          | apply negb_false_iff; assumption ].
Qed.

Lemma handleReceive_served_io_witness :
  exists currentDir pythonHash pythonExt txtHash txtExt,
    os_Getwd env_ok = inl currentDir
    /\ strings_HasSuffix (pythonHash +:+ pythonExt) ".py" = true
    /\ strings_HasSuffix (txtHash +:+ txtExt) ".txt" = true
    /\ handleReceive_io env_ok request_empty_suffix
       = [IO_Getwd;
          IO_Download pythonHash (filepath_Join env_ok currentDir (pythonHash +:+ pythonExt));
          IO_Download txtHash (filepath_Join env_ok currentDir (txtHash +:+ txtExt));
          IO_Execute (filepath_Join env_ok currentDir (pythonHash +:+ pythonExt))
                     (filepath_Join env_ok currentDir (txtHash +:+ txtExt));
          IO_Remove (filepath_Join env_ok currentDir (pythonHash +:+ pythonExt));
          IO_Remove (filepath_Join env_ok currentDir (txtHash +:+ txtExt))].
Proof.
  apply (handleReceive_served_io env_ok request_empty_suffix world_two).
  reflexivity.
Defined.

(** ** The client and the miner *)

Lemma count_char_append (c : ascii) (a b : string) :
  count_char c (a +:+ b) = (count_char c a + count_char c b)%nat.
Proof.
  induction a as [|x a IH]; [reflexivity|]. rewrite append_cons.
  cbn [count_char]. destruct (Ascii.eqb x c); cbn; now rewrite IH.
Qed.

Lemma cut_first (a b : string) (c : ascii) :
  count_char c a = 0%nat -> cut (a +:+ String c b) c = Some (a, b).
Proof.
  induction a as [|x a IH].
  - intros _. change (EmptyString +:+ String c b) with (String c b).
    cbn [cut]. now rewrite Ascii.eqb_refl.
  - rewrite append_cons. cbn [cut count_char].
    destruct (Ascii.eqb x c); [discriminate|]. intros H. now rewrite IH.
Qed.

Lemma strings_SplitN2_first (a b : string) (c : ascii) :
  count_char c a = 0%nat -> strings_SplitN2 (a +:+ String c b) c = [a; b].
Proof. intros H. unfold strings_SplitN2. now rewrite cut_first. Qed.

(** What the miner splits off a body of two entries. *)
Lemma split_two_entries (h0 e0 h1 e1 : string) :
  count_char "," h0 = 0%nat -> count_char "," e0 = 0%nat ->
  count_char "," h1 = 0%nat -> count_char "," e1 = 0%nat ->
  strings_Split ((h0 +:+ "|" +:+ e0) +:+ "," +:+ h1 +:+ "|" +:+ e1) ","
  = [h0 +:+ "|" +:+ e0; h1 +:+ "|" +:+ e1].
Proof.
  intros H0 H1 H2 H3.
  change ("," +:+ h1 +:+ "|" +:+ e1) with (String "," (h1 +:+ "|" +:+ e1)).
  rewrite strings_Split_head, strings_Split_single; [reflexivity| |].
  - rewrite !count_char_append, H2, H3. reflexivity.
  - rewrite !count_char_append, H0, H1. reflexivity.
Qed.

Lemma fileHashes_both (upload : string -> string + string) (hPy hTxt : string) :
  upload "algo.py" = inl hPy -> upload "data.txt" = inl hTxt ->
  map_to_list (fileHashes upload) ≡ₚ [("data.txt", hTxt); ("algo.py", hPy)].
Proof.
  intros H1 H2. unfold fileHashes, files. cbn [foldl]. rewrite H1, H2.
  rewrite map_to_list_insert by (now rewrite lookup_insert_ne, lookup_empty).
  rewrite map_to_list_insert by apply lookup_empty.
  now rewrite map_to_list_empty.
Qed.

(** X5: what [main] can send.  With both uploads done it is the program's
    entry followed by the input's, or the other way round, as the order of
    [range] over the map falls; with one upload failed it is the single entry
    of the other file; with both failed it is the empty string. *)
Theorem main_sends_hashes (upload : string -> string + string) :
  (forall hPy hTxt hashes,
      upload "algo.py" = inl hPy -> upload "data.txt" = inl hTxt ->
      (main_sends upload hashes <->
       hashes = (hPy +:+ "|.py") +:+ "," +:+ hTxt +:+ "|.txt"
       \/ hashes = (hTxt +:+ "|.txt") +:+ "," +:+ hPy +:+ "|.py"))
  /\ (forall hPy err hashes,
        upload "algo.py" = inl hPy -> upload "data.txt" = inr err ->
        (main_sends upload hashes <-> hashes = hPy +:+ "|.py"))
  /\ (forall hTxt err hashes,
        upload "algo.py" = inr err -> upload "data.txt" = inl hTxt ->
        (main_sends upload hashes <-> hashes = hTxt +:+ "|.txt"))
  /\ (forall err err' hashes,
        upload "algo.py" = inr err -> upload "data.txt" = inr err' ->
        (main_sends upload hashes <-> hashes = EmptyString)).
Proof.
  split; [|split; [|split]].
  - intros hPy hTxt hashes H1 H2. unfold main_sends.
    pose proof (fileHashes_both upload hPy hTxt H1 H2) as Hm. split.
    + intros (entries & Hperm & ->). rewrite Hm in Hperm. symmetry in Hperm.
      apply Permutation_length_2_inv in Hperm as [-> | ->]; [right|left];
        reflexivity.
    + intros [-> | ->].
      * exists [("algo.py", hPy); ("data.txt", hTxt)]. split; [|reflexivity].
        rewrite Hm. apply perm_swap.
      * exists [("data.txt", hTxt); ("algo.py", hPy)]. split; [|reflexivity].
        now rewrite Hm.
  - intros hPy err hashes H1 H2. unfold main_sends, fileHashes, files.
    cbn [foldl]. rewrite H1, H2. rewrite insert_empty, map_to_list_singleton.
    split.
    + intros (entries & Hperm & ->).
      apply Permutation_singleton_r in Hperm as ->. reflexivity.
    + intros ->. exists [("algo.py", hPy)]. split; reflexivity.
  - intros hTxt err hashes H1 H2. unfold main_sends, fileHashes, files.
    cbn [foldl]. rewrite H1, H2. rewrite insert_empty, map_to_list_singleton.
    split.
    + intros (entries & Hperm & ->).
      apply Permutation_singleton_r in Hperm as ->. reflexivity.
    + intros ->. exists [("data.txt", hTxt)]. split; reflexivity.
  - intros err err' hashes H1 H2. unfold main_sends, fileHashes, files.
    cbn [foldl]. rewrite H1, H2. rewrite map_to_list_empty. split.
    + intros (entries & Hperm & ->).
      apply Permutation_nil_r in Hperm as ->. reflexivity.
    + intros ->. exists []. split; reflexivity.
Qed.

Lemma main_sends_hashes_witness :
  (main_sends upload_ok "QmInput|.txt,QmProgram|.py" <->
   "QmInput|.txt,QmProgram|.py" = ("QmProgram" +:+ "|.py") +:+ "," +:+ "QmInput" +:+ "|.txt"
   \/ "QmInput|.txt,QmProgram|.py" = ("QmInput" +:+ "|.txt") +:+ "," +:+ "QmProgram" +:+ "|.py")
  /\ (main_sends (fun _ => inr "no daemon") "" <-> "" = EmptyString).
Proof.
  split.
  - apply (proj1 (main_sends_hashes upload_ok) "QmProgram" "QmInput"); reflexivity.
  - apply (proj2 (proj2 (proj2 (main_sends_hashes (fun _ => inr "no daemon"))))
             "no daemon" "no daemon"); reflexivity.
Defined.

(** The calls of the handler on a body of two entries, as far as the
    first download. *)
Lemma handleReceive_io_two_entries (env : Env) (remote h0 e0 h1 e1 currentDir : string) :
  count_char "," h0 = 0%nat -> count_char "," e0 = 0%nat ->
  count_char "," h1 = 0%nat -> count_char "," e1 = 0%nat ->
  count_char "|" h0 = 0%nat -> count_char "|" h1 = 0%nat ->
  os_Getwd env = inl currentDir ->
  exists pythonExt txtExt rest,
    strings_HasSuffix pythonExt ".py" = true
    /\ strings_HasSuffix txtExt ".txt" = true
    /\ handleReceive_io env
         (request_from_client remote
            ((h0 +:+ "|" +:+ e0) +:+ "," +:+ h1 +:+ "|" +:+ e1))
       = IO_Getwd
         :: IO_Download (strings_TrimSpace env h0)
              (filepath_Join env currentDir (strings_TrimSpace env h0 +:+ pythonExt))
         :: rest
    /\ (forall hash filename, In (IO_Download hash filename) rest ->
          hash = strings_TrimSpace env h1
          /\ filename
             = filepath_Join env currentDir (strings_TrimSpace env h1 +:+ txtExt))
    /\ (forall filename arg, In (IO_Execute filename arg) rest ->
          filename
          = filepath_Join env currentDir (strings_TrimSpace env h0 +:+ pythonExt)
          /\ arg
             = filepath_Join env currentDir (strings_TrimSpace env h1 +:+ txtExt)).
Proof.
  intros H0 H1 H2 H3 H4 H5 Hwd.
  unfold handleReceive_io, request_from_client. cbn [Method Body].
  replace (negb ("POST" =? "POST")%string) with false by reflexivity.
  rewrite split_two_entries by assumption.
  change ("|" +:+ e0) with (String "|" e0).
  change ("|" +:+ e1) with (String "|" e1).
  rewrite !strings_SplitN2_first by assumption. rewrite Hwd.
  exists (if negb (strings_HasSuffix (strings_TrimSpace env e0) ".py")
          then ".py" else strings_TrimSpace env e0),
         (if negb (strings_HasSuffix (strings_TrimSpace env e1) ".txt")
          then ".txt" else strings_TrimSpace env e1).
  eexists. split; [apply default_ext_suffix|]. split; [apply default_ext_suffix|].
  split; [reflexivity|].
  split.
  - intros hash filename. repeat case_match; cbn [In]; intros Hin;
      repeat (destruct Hin as [Hin|Hin]; try discriminate Hin); try contradiction;
      injection Hin as <- <-; split; reflexivity.
  - intros filename arg. repeat case_match; cbn [In]; intros Hin;
      repeat (destruct Hin as [Hin|Hin]; try discriminate Hin); try contradiction;
      injection Hin as <- <-; split; reflexivity.
Qed.

(** X6: the miner takes the entries of a body by position.  Of two entries
    [h0|e0,h1|e1] it downloads [h0] first and stores it under a name ending in
    [.py], it downloads [h1] under a name ending in [.txt], and whatever it
    executes is the first file on the second: the suffixes [e0] and [e1] do
    not decide which file is the program. *)
Theorem handleReceive_takes_entries_by_position (env : Env)
    (remote h0 e0 h1 e1 currentDir : string) :
  count_char "," h0 = 0%nat -> count_char "," e0 = 0%nat ->
  count_char "," h1 = 0%nat -> count_char "," e1 = 0%nat ->
  count_char "|" h0 = 0%nat -> count_char "|" h1 = 0%nat ->
  os_Getwd env = inl currentDir ->
  exists pythonExt txtExt rest,
    strings_HasSuffix pythonExt ".py" = true
    /\ strings_HasSuffix txtExt ".txt" = true
    /\ handleReceive_io env
         (request_from_client remote
            ((h0 +:+ "|" +:+ e0) +:+ "," +:+ h1 +:+ "|" +:+ e1))
       = IO_Getwd
         :: IO_Download (strings_TrimSpace env h0)
              (filepath_Join env currentDir (strings_TrimSpace env h0 +:+ pythonExt))
         :: rest
    /\ (forall hash filename, In (IO_Download hash filename) rest ->
          hash = strings_TrimSpace env h1
          /\ filename
             = filepath_Join env currentDir (strings_TrimSpace env h1 +:+ txtExt))
    /\ (forall filename arg, In (IO_Execute filename arg) rest ->
          filename
          = filepath_Join env currentDir (strings_TrimSpace env h0 +:+ pythonExt)
          /\ arg
             = filepath_Join env currentDir (strings_TrimSpace env h1 +:+ txtExt)).
Proof. apply handleReceive_io_two_entries. Qed.

Lemma handleReceive_takes_entries_by_position_witness :
  exists pythonExt txtExt rest,
    strings_HasSuffix pythonExt ".py" = true
    /\ strings_HasSuffix txtExt ".txt" = true
    /\ handleReceive_io env_ok
         (request_from_client "10.0.0.9:51000"
            (("QmInput" +:+ "|" +:+ ".txt") +:+ "," +:+ "QmProgram" +:+ "|" +:+ ".py"))
       = IO_Getwd
         :: IO_Download (strings_TrimSpace env_ok "QmInput")
              (filepath_Join env_ok "/srv" (strings_TrimSpace env_ok "QmInput" +:+ pythonExt))
         :: rest
    /\ (forall hash filename, In (IO_Download hash filename) rest ->
          hash = strings_TrimSpace env_ok "QmProgram"
          /\ filename
             = filepath_Join env_ok "/srv" (strings_TrimSpace env_ok "QmProgram" +:+ txtExt))
    /\ (forall filename arg, In (IO_Execute filename arg) rest ->
          filename
          = filepath_Join env_ok "/srv" (strings_TrimSpace env_ok "QmInput" +:+ pythonExt)
          /\ arg
             = filepath_Join env_ok "/srv" (strings_TrimSpace env_ok "QmProgram" +:+ txtExt)).
Proof.
  apply (handleReceive_takes_entries_by_position env_ok "10.0.0.9:51000"
           "QmInput" ".txt" "QmProgram" ".py" "/srv"); reflexivity.
Defined.

(** X7: client and miner together.  When both uploads succeed, one of the
    bodies [main] may send lists the input first; on that body a miner
    downloads the input's hash as the program, stores it under a [.py] name
    and runs it on the program file. *)
Theorem client_order_decides_program (upload : string -> string + string)
    (env : Env) (remote hPy hTxt currentDir : string) :
  upload "algo.py" = inl hPy -> upload "data.txt" = inl hTxt ->
  count_char "," hPy = 0%nat -> count_char "|" hPy = 0%nat ->
  count_char "," hTxt = 0%nat -> count_char "|" hTxt = 0%nat ->
  os_Getwd env = inl currentDir ->
  exists hashes pythonExt txtExt rest,
    main_sends upload hashes
    /\ strings_HasSuffix pythonExt ".py" = true
    /\ strings_HasSuffix txtExt ".txt" = true
    /\ handleReceive_io env (request_from_client remote hashes)
       = IO_Getwd
         :: IO_Download (strings_TrimSpace env hTxt)
              (filepath_Join env currentDir (strings_TrimSpace env hTxt +:+ pythonExt))
         :: rest
    /\ (forall filename arg, In (IO_Execute filename arg) rest ->
          filename
          = filepath_Join env currentDir (strings_TrimSpace env hTxt +:+ pythonExt)
          /\ arg
             = filepath_Join env currentDir (strings_TrimSpace env hPy +:+ txtExt)).
Proof.
  intros H1 H2 Hc1 Hb1 Hc2 Hb2 Hwd.
  destruct (handleReceive_io_two_entries env remote hTxt ".txt" hPy ".py"
              currentDir Hc2 eq_refl Hc1 eq_refl Hb2 Hb1 Hwd)
    as (pe & te & rest & Hpe & Hte & Hio & _ & Hex).
  exists ((hTxt +:+ "|.txt") +:+ "," +:+ hPy +:+ "|.py"), pe, te, rest.
  split.
  - exists [("data.txt", hTxt); ("algo.py", hPy)]. split; [|reflexivity].
    now rewrite (fileHashes_both upload hPy hTxt H1 H2).
  - split; [exact Hpe|]. split; [exact Hte|]. split; [exact Hio|exact Hex].
Qed.

Lemma client_order_decides_program_witness :
  exists hashes pythonExt txtExt rest,
    main_sends upload_ok hashes
    /\ strings_HasSuffix pythonExt ".py" = true
    /\ strings_HasSuffix txtExt ".txt" = true
    /\ handleReceive_io env_ok (request_from_client "10.0.0.9:51000" hashes)
       = IO_Getwd
         :: IO_Download (strings_TrimSpace env_ok "QmInput")
              (filepath_Join env_ok "/srv" (strings_TrimSpace env_ok "QmInput" +:+ pythonExt))
         :: rest
    /\ (forall filename arg, In (IO_Execute filename arg) rest ->
          filename
          = filepath_Join env_ok "/srv" (strings_TrimSpace env_ok "QmInput" +:+ pythonExt)
          /\ arg
             = filepath_Join env_ok "/srv" (strings_TrimSpace env_ok "QmProgram" +:+ txtExt)).
Proof.
  apply (client_order_decides_program upload_ok env_ok "10.0.0.9:51000"
           "QmProgram" "QmInput" "/srv"); reflexivity.
Defined.

Example client_order_decides_program_run :
  handleReceive_io env_ok
    (request_from_client "10.0.0.9:51000" "QmInput|.txt,QmProgram|.py")
  = [IO_Getwd; IO_Download "QmInput" "/srv/QmInput.py";
     IO_Download "QmProgram" "/srv/QmProgram.txt";
     IO_Execute "/srv/QmInput.py" "/srv/QmProgram.txt";
     IO_Remove "/srv/QmInput.py"; IO_Remove "/srv/QmProgram.txt"].
Proof. reflexivity. Qed.

(** ** More on the proof of work *)

(** Whatever the loop returns is a valid proof, for any number of
    iterations and any first candidate. *)
Lemma proofOfWork_loop_sound (fuel : nat) (block : Block) (d k n : Z) :
  proofOfWork_loop fuel block d k = Returns n ->
  validProof (generateHash block n) d = Some true.
Proof.
  revert k. induction fuel as [|fuel IH]; intros k; cbn [proofOfWork_loop];
    [discriminate|].
  destruct (validProof (generateHash block k) d) as [[|]|] eqn:Hv;
    [|apply IH|discriminate].
  intros [= <-]. exact Hv.
Qed.

Lemma validProof_true (h : string) (d : Z) :
  validProof h d = Some true <-> 0 <= d /\ (Z.to_nat d <= leading_zeros h)%nat.
Proof.
  destruct (Z.lt_ge_cases d 0) as [Hneg|Hd].
  - rewrite validProof_negative by assumption. split; [discriminate|lia].
  - rewrite validProof_leading_zeros by assumption. split.
    + intros [= H]. apply Nat.leb_le in H. lia.
    + intros [_ H]. apply Nat.leb_le in H. now rewrite H.
Qed.



(** X9: raising the difficulty never lowers the nonce: if the search
    returns at two difficulties [0 <= d' <= d], the nonce found at [d'] is at
    most the one found at [d] (searches within the range of [int]). *)
Theorem proofOfWork_monotone_in_difficulty (block : Block) (d d' : Z)
    (fuel fuel' : nat) (n n' : Z) :
  0 <= d' <= d ->
  Z.of_nat fuel <= max_int + 1 -> Z.of_nat fuel' <= max_int + 1 ->
  proofOfWork fuel block d = Returns n ->
  proofOfWork fuel' block d' = Returns n' ->
  n' <= n.
Proof.
  intros Hd Hf Hf' Hn Hn'.
  pose proof (proofOfWork_loop_spec block d fuel ltac:(lia) 0 ltac:(lia) ltac:(lia))
    as Hs.
  pose proof (proofOfWork_loop_spec block d' fuel' ltac:(lia) 0 ltac:(lia) ltac:(lia))
    as Hs'.
  unfold proofOfWork in Hn, Hn'. rewrite Hn in Hs. rewrite Hn' in Hs'.
  destruct Hs as (Hr & Hm & _). destruct Hs' as (Hr' & _ & Hleast').
  destruct (Z.le_gt_cases n' n) as [Hle|Hgt]; [exact Hle|].
  exfalso. apply (Hleast' n); [lia|]. unfold meets in *. lia.
Qed.

Lemma proofOfWork_monotone_in_difficulty_witness : 54 <= 261.
Proof.
  apply (proofOfWork_monotone_in_difficulty block1 2 1 262 55 261 54).
  - lia.
  - unfold max_int. lia.
  - unfold max_int. lia.
  - vm_compute. reflexivity.
  - vm_compute. reflexivity.
Defined.

Lemma hex_digit_is_hex (n : Z) : is_hex (hex_digit n) = true.
Proof. unfold hex_digit. repeat case_match; reflexivity. Qed.

(** X10: the digest [generateHash] returns is a string of exactly 64
    lowercase hexadecimal digits, for every block and nonce. *)
Theorem generateHash_is_64_hex_digits (block : Block) (nonce : Z) :
  String.length (generateHash block nonce) = 64%nat
  /\ forallb is_hex (list_ascii_of_string (generateHash block nonce)) = true.
Proof.
  split; [apply generateHash_length|].
  unfold generateHash, sha256_hex, sprintf_x.
  destruct (SHA256.Sum256 _). unfold hex_word, nibble.
  cbn [list_ascii_of_string forallb]. rewrite !hex_digit_is_hex. reflexivity.
Qed.

(** ** Steps, case by case *)

Lemma step_cases (i : nat) (now : Z) (fuel : nat) (w w' : World) :
  step i now fuel w = Some w' ->
  panicked w = false
  /\ exists g, goroutines w !! i = Some g
     /\ match g with
        | GMineBlock miner d =>
            (exists b, mineBlock miner d now (globals w) = Some b
                       /\ w' = continue w (globals w) i GDone [GSearch b d])
            \/ (mineBlock miner d now (globals w) = None
                /\ w' = continue w (globals w) i GDone [])
        | GSearch b d =>
            (exists n, proofOfWork fuel b d = Returns n
                       /\ w' = continue w (globals w) i (GCommit (seal b n))
                                        [GUpload (seal b n)])
            \/ (proofOfWork fuel b d = Panics /\ w' = panic w)
        | GCommit b =>
            w' = continue w (commitTip b (globals w)) i GShrink [GBroadcast b]
        | GShrink =>
            (exists s, shrinkPool (globals w) = Some s
                       /\ w' = continue w s i GDone [])
            \/ (shrinkPool (globals w) = None /\ w' = panic w)
        | GUpload b => w' = continue w (globals w) i GDone []
        | GBroadcast b =>
            w' = continue (broadcastBlock b w) (globals w) i GDone []
        | GDone => False
        end.
Proof.
  unfold step. destruct (panicked w); [discriminate|].
  destruct (goroutines w !! i) as [g|]; [|discriminate].
  intros H. split; [reflexivity|]. exists g. split; [reflexivity|].
  destruct g as [miner d|b d|b| |b|b|].
  - destruct (mineBlock miner d now (globals w)) as [b|]; injection H as <-;
      [left; eauto|right; eauto].
  - destruct (proofOfWork fuel b d) as [n| |]; [| |discriminate];
      injection H as <-; [left; eauto|right; eauto].
  - now injection H as <-.
  - destruct (shrinkPool (globals w)) as [s|]; injection H as <-;
      [left; eauto|right; eauto].
  - now injection H as <-.
  - now injection H as <-.
  - discriminate.
Qed.

Lemma shrinkPool_Some (s s' : State) :
  shrinkPool s = Some s' ->
  (3 <= length (transactionPool s))%nat
  /\ s' = mkState (drop 3 (transactionPool s)) (currentBlock s)
                  (previousBlockCID s) (previousBlockHash s).
Proof.
  unfold shrinkPool.
  destruct (Nat.leb_spec 3 (length (transactionPool s))); [|discriminate].
  intros [= <-]. split; [assumption|reflexivity].
Qed.

(** ** The pool along a run *)

Lemma adds_receive (env : Env) (r : Request) (w : World) :
  transactionPool (globals (snd (handleReceive env r w)))
  = transactionPool (globals w) ++ adds (DoReceive env r) w.
Proof.
  cbn [adds].
  destruct (handleReceive_effect env r w) as [(_ & ->)|(_ & result & ->)].
  - now rewrite drop_all, app_nil_r.
  - cbn. now rewrite drop_app_length.
Qed.

(** One action: the pool loses three transactions at its head if the
    action is a removal, and gains what the action adds at its tail. *)
Lemma pool_act (a : Action) (w w' : World) :
  act a w = Some w' ->
  (3 * removed a w <= length (transactionPool (globals w)))%nat
  /\ transactionPool (globals w')
     = drop (3 * removed a w) (transactionPool (globals w)) ++ adds a w.
Proof.
  unfold act. destruct (panicked w) eqn:Hp; [discriminate|].
  destruct a as [t|miner d|env r|i now fuel].
  - intros [= <-]. cbn. split; [lia|reflexivity].
  - intros [= <-]. cbn. split; [lia|now rewrite app_nil_r].
  - intros [= <-]. split; [cbn; lia|]. apply adds_receive.
  - intros H. apply step_cases in H as (_ & g & Hi & H).
    cbn [removed adds]. rewrite Hi, app_nil_r.
    destruct g as [miner d|b d|b| |b|b|].
    + destruct H as [(b & _ & ->)|(_ & ->)]; cbn; split; (lia || reflexivity).
    + destruct H as [(n & _ & ->)|(_ & ->)]; cbn; split; (lia || reflexivity).
    + subst w'. cbn. split; [lia|reflexivity].
    + destruct H as [(s & Hs & ->)|(Hs & ->)]; rewrite Hs.
      * apply shrinkPool_Some in Hs as [Hlen ->]. cbn. split; [lia|reflexivity].
      * cbn. split; [lia|reflexivity].
    + subst w'. cbn. split; [lia|reflexivity].
    + subst w'. cbn. split; [lia|reflexivity].
    + contradiction.
Qed.

Lemma pool_run (acts : list Action) :
  forall (w w' : World),
    run acts w = Some w' ->
    (3 * removals acts w <= length (transactionPool (globals w) ++ added acts w))%nat
    /\ transactionPool (globals w')
       = drop (3 * removals acts w) (transactionPool (globals w) ++ added acts w).
Proof.
  induction acts as [|a acts IH]; intros w w'; cbn [run removals added].
  - intros [= <-]. cbn. rewrite app_nil_r. split; [lia|reflexivity].
  - destruct (act a w) as [w1|] eqn:Ha; [|discriminate]. intros Hrun.
    destruct (pool_act a w w1 Ha) as [Hlen Hpool].
    destruct (IH w1 w' Hrun) as [Hlen' Hpool'].
    rewrite Hpool in Hlen', Hpool'.
    rewrite !length_app, length_drop in Hlen'. rewrite !length_app.
    split; [lia|].
    rewrite Hpool'. rewrite <- app_assoc.
    rewrite <- (drop_app_le _ (adds a w ++ added acts w1)) by lia.
    rewrite drop_drop. f_equal. lia.
Qed.

(** X11: the pool is a queue.  At the end of every run from the start, the
    pool is the sequence of the transactions added, in the order of their
    addition, less the first [3 * k] of them, [k] being the number of
    removals made: nothing is ever reordered, inserted in the middle or
    dropped elsewhere than at the head, three at a time. *)
Theorem pool_is_added_less_removed (acts : list Action) (w : World) :
  run acts init_World = Some w ->
  (3 * removals acts init_World <= length (added acts init_World))%nat
  /\ transactionPool (globals w)
     = drop (3 * removals acts init_World) (added acts init_World).
Proof. intros H. exact (pool_run acts init_World w H). Qed.

Lemma pool_is_added_less_removed_witness :
  transactionPool (globals world_commit)
  = drop (3 * removals run_commit init_World) (added run_commit init_World).
Proof.
  apply (pool_is_added_less_removed run_commit world_commit).
  vm_compute. reflexivity.
Defined.

(** ** The batches along a run *)

Lemma batch_of_mono (A more : list Transaction) (b : Block) :
  batch_of A b -> batch_of (A ++ more) b.
Proof.
  intros (j & Hj & Hb). exists j. split; [rewrite length_app; lia|].
  rewrite drop_app_le by lia. rewrite take_app_le; [exact Hb|].
  rewrite length_drop. lia.
Qed.

Lemma batches_continue (w : World) (s : State) (i : nat) (g : Goroutine)
    (new : list Goroutine) (A : list Transaction) :
  Forall (fun g => forall b, attempt_block g = Some b -> batch_of A b)
         (goroutines w) ->
  (forall b, attempt_block g = Some b -> batch_of A b) ->
  Forall (fun g => forall b, attempt_block g = Some b -> batch_of A b) new ->
  Forall (fun g => forall b, attempt_block g = Some b -> batch_of A b)
         (goroutines (continue w s i g new)).
Proof.
  intros Hgs Hg Hnew. cbn [continue goroutines].
  apply Forall_app. split; [|exact Hnew]. now apply Forall_insert.
Qed.

Lemma batches_act (a : Action) (w w' : World) (A : list Transaction) (R : nat) :
  batches_inv w A R -> act a w = Some w' ->
  batches_inv w' (A ++ adds a w) (R + removed a w)
  /\ Forall (batch_of A) (committed a w).
Proof.
  intros (HR & Hpool & Hgs) Ha.
  destruct (pool_act a w w' Ha) as [Hlen Hpool'].
  rewrite Hpool, length_drop in Hlen.
  assert (Hmono : Forall (fun g => forall b, attempt_block g = Some b ->
                                             batch_of (A ++ adds a w) b)
                         (goroutines w)).
  { eapply Forall_impl; [exact Hgs|]. intros g Hg b Hb.
    apply batch_of_mono. now apply Hg. }
  assert (Hp : (3 * (R + removed a w) <= length (A ++ adds a w))%nat
               /\ transactionPool (globals w')
                  = drop (3 * (R + removed a w)) (A ++ adds a w)).
  { rewrite length_app. split; [lia|].
    rewrite Hpool', Hpool, drop_drop, drop_app_le by lia.
    do 2 f_equal. lia. }
  destruct Hp as [Hp1 Hp2].
  revert Ha. unfold act. destruct (panicked w) eqn:Hpan; [discriminate|].
  destruct a as [t|miner d|env r|i now fuel].
  - intros [= <-]. split; [|constructor].
    split; [exact Hp1|]. split; [exact Hp2|exact Hmono].
  - intros [= <-]. split; [|constructor].
    split; [exact Hp1|]. split; [exact Hp2|].
    cbn [goroutines]. apply Forall_app. split; [exact Hmono|].
    constructor; [discriminate|constructor].
  - intros [= <-]. split; [|constructor].
    split; [exact Hp1|]. split; [exact Hp2|].
    destruct (handleReceive_effect env r w) as [(_ & ->)|(_ & result & ->)];
      [exact Hmono|].
    cbn [goroutines]. apply Forall_app. split; [exact Hmono|].
    constructor; [discriminate|constructor].
  - intros H. pose proof H as Hstep.
    apply step_cases in H as (_ & g & Hi & H).
    pose proof (Forall_lookup_1 _ _ _ _ Hgs Hi) as Hg.
    cbn [adds] in *. rewrite app_nil_r in *.
    cbn [committed]. rewrite Hi.
    destruct g as [miner d|b d|b| |b|b|].
    + split; [|constructor]. split; [exact Hp1|]. split; [exact Hp2|].
      destruct H as [(b & Hm & ->)|(_ & ->)].
      * apply batches_continue; [exact Hgs|discriminate|].
        constructor; [|constructor]. intros b' [= <-].
        apply mineBlock_Some in Hm as (Hlen3 & Htx & _).
        exists R. rewrite Hpool, length_drop in Hlen3.
        split; [lia|]. now rewrite Htx, Hpool.
      * apply batches_continue; [exact Hgs|discriminate|constructor].
    + split; [|constructor]. split; [exact Hp1|]. split; [exact Hp2|].
      destruct H as [(n & _ & ->)|(_ & ->)]; [|exact Hgs].
      apply batches_continue; [exact Hgs| |].
      * intros b' [= <-]. destruct (Hg b eq_refl) as (j & Hj & Hb).
        exists j. split; [exact Hj|].
        now destruct (seal_fields b n) as (-> & _).
      * constructor; [discriminate|constructor].
    + split; [|constructor; [apply Hg; reflexivity|constructor]].
      split; [exact Hp1|]. split; [exact Hp2|]. subst w'.
      apply batches_continue; [exact Hgs|discriminate|].
      constructor; [discriminate|constructor].
    + split; [|constructor]. split; [exact Hp1|]. split; [exact Hp2|].
      destruct H as [(s & _ & ->)|(_ & ->)]; [|exact Hgs].
      apply batches_continue; [exact Hgs|discriminate|constructor].
    + split; [|constructor]. split; [exact Hp1|]. split; [exact Hp2|]. subst w'.
      apply batches_continue; [exact Hgs|discriminate|constructor].
    + split; [|constructor]. split; [exact Hp1|]. split; [exact Hp2|]. subst w'.
      apply batches_continue; [exact Hgs|discriminate|constructor].
    + contradiction.
Qed.

Lemma batches_run (acts : list Action) :
  forall (w w' : World) (A : list Transaction) (R : nat),
    batches_inv w A R -> run acts w = Some w' ->
    Forall (batch_of (A ++ added acts w)) (commits acts w).
Proof.
  induction acts as [|a acts IH]; intros w w' A R Hinv; cbn [run commits added].
  - intros _. constructor.
  - destruct (act a w) as [w1|] eqn:Ha; [|discriminate]. intros Hrun.
    destruct (batches_act a w w1 A R Hinv Ha) as [Hinv1 Hc].
    apply Forall_app. split.
    + eapply Forall_impl; [exact Hc|]. intros b Hb. now apply batch_of_mono.
    + rewrite app_assoc. exact (IH w1 w' _ _ Hinv1 Hrun).
Qed.

(** X12: in every run from the start, overlapping attempts or not, each
    committed block holds exactly three transactions, and they are three
    consecutive transactions of the sequence added, starting at a multiple
    of three: a batch never straddles two groups, never mixes orders and is
    never short.  So nothing is committed before three transactions have
    been added. *)
Theorem committed_batches_are_groups_of_three (acts : list Action) (w : World) :
  run acts init_World = Some w ->
  Forall (fun b => batch_of (added acts init_World) b
                   /\ length (Transactions b) = 3%nat)
         (commits acts init_World)
  /\ (commits acts init_World <> [] ->
      (3 <= length (added acts init_World))%nat).
Proof.
  intros Hrun.
  assert (Hinit : batches_inv init_World [] 0).
  { split; [cbn; lia|]. split; [reflexivity|constructor]. }
  pose proof (batches_run acts init_World w [] 0%nat Hinit Hrun) as H.
  cbn [app] in H. split.
  - eapply Forall_impl; [exact H|]. intros b Hb. split; [exact Hb|].
    destruct Hb as (j & Hj & ->). rewrite length_take, length_drop. lia.
  - destruct (commits acts init_World) as [|b bs]; [congruence|]. intros _.
    apply Forall_cons in H as [(j & Hj & _) _]. lia.
Qed.

Lemma committed_batches_are_groups_of_three_witness :
  Forall (fun b => batch_of (added run_overlap6 init_World) b
                   /\ length (Transactions b) = 3%nat)
         (commits run_overlap6 init_World).
Proof.
  refine (proj1 (committed_batches_are_groups_of_three run_overlap6
                   (mkWorld (mkState [] sealed1b "-1" (Hash sealed1b))
                            [GDone; GDone; GDone; GDone; GUpload sealed1; GDone;
                             GUpload sealed1b; GDone] [sealed1; sealed1b] false) _)).
  vm_compute. reflexivity.
Defined.

(** ** The proof of work of committed blocks *)

Lemma generateHash_seal (b : Block) (n : Z) :
  generateHash (seal b n) n = generateHash b n.
Proof. reflexivity. Qed.

Lemma pow_ok_seal (fuel : nat) (b : Block) (n : Z) :
  proofOfWork fuel b (Difficulty b) = Returns n -> pow_ok (seal b n).
Proof.
  intros H. apply proofOfWork_loop_sound in H. apply validProof_true in H as [Hd Hz].
  destruct (seal_fields b n) as (_ & _ & _ & _ & _ & _ & Hdiff & Hnonce & Hhash).
  unfold pow_ok. rewrite Hdiff, Hnonce, Hhash, generateHash_seal.
  split; [reflexivity|]. split; [apply generateHash_length|]. split; assumption.
Qed.

Lemma pow_inv_act (a : Action) (w w' : World) :
  Forall pow_inv (goroutines w) -> act a w = Some w' ->
  Forall pow_inv (goroutines w') /\ Forall pow_ok (committed a w).
Proof.
  intros Hgs. unfold act. destruct (panicked w) eqn:Hpan; [discriminate|].
  destruct a as [t|miner d|env r|i now fuel].
  - intros [= <-]. split; [exact Hgs|constructor].
  - intros [= <-]. split; [|constructor]. cbn [goroutines].
    apply Forall_app. split; [exact Hgs|]. repeat constructor.
  - intros [= <-]. split; [|constructor].
    destruct (handleReceive_effect env r w) as [(_ & ->)|(_ & result & ->)];
      [exact Hgs|].
    cbn [goroutines]. apply Forall_app. split; [exact Hgs|]. repeat constructor.
  - intros H. apply step_cases in H as (_ & g & Hi & H).
    pose proof (Forall_lookup_1 _ _ _ _ Hgs Hi) as Hg.
    cbn [committed]. rewrite Hi.
    destruct g as [miner d|b d|b| |b|b|].
    + split; [|constructor].
      destruct H as [(b & Hm & ->)|(_ & ->)]; cbn [continue goroutines];
        (apply Forall_app; split; [apply Forall_insert; [exact Hgs|exact I]|]).
      * apply mineBlock_Some in Hm as (_ & _ & _ & _ & _ & _ & _ & Hd).
        repeat constructor. exact Hd.
      * constructor.
    + split; [|constructor].
      destruct H as [(n & Hpow & ->)|(_ & ->)]; [|exact Hgs].
      cbn [continue goroutines]. apply Forall_app. split; [|repeat constructor].
      apply Forall_insert; [exact Hgs|]. cbn in Hg. subst d.
      exact (pow_ok_seal fuel b n Hpow).
    + split; [|constructor; [exact Hg|constructor]]. subst w'.
      cbn [continue goroutines]. apply Forall_app. split; [|repeat constructor].
      apply Forall_insert; [exact Hgs|exact I].
    + split; [|constructor].
      destruct H as [(s & _ & ->)|(_ & ->)]; [|exact Hgs].
      cbn [continue goroutines]. rewrite app_nil_r.
      apply Forall_insert; [exact Hgs|exact I].
    + split; [|constructor]. subst w'. cbn [continue goroutines].
      rewrite app_nil_r. apply Forall_insert; [exact Hgs|exact I].
    + split; [|constructor]. subst w'. cbn [continue goroutines broadcastBlock].
      rewrite app_nil_r. apply Forall_insert; [exact Hgs|exact I].
    + contradiction.
Qed.

Lemma pow_inv_run (acts : list Action) :
  forall w w' : World,
    Forall pow_inv (goroutines w) -> run acts w = Some w' ->
    Forall pow_ok (commits acts w).
Proof.
  induction acts as [|a acts IH]; intros w w' Hgs; cbn [run commits].
  - intros _. constructor.
  - destruct (act a w) as [w1|] eqn:Ha; [|discriminate]. intros Hrun.
    destruct (pow_inv_act a w w1 Hgs Ha) as [Hgs1 Hc].
    apply Forall_app. split; [exact Hc|]. exact (IH w1 w' Hgs1 Hrun).
Qed.

(** X13: every block committed in a run from the start carries a valid
    proof of work: its Hash is the digest of the block with its own Nonce,
    64 characters long, its Difficulty is not negative, and the Hash starts
    with at least Difficulty zeros. *)
Theorem committed_blocks_carry_proof_of_work (acts : list Action) (w : World) :
  run acts init_World = Some w -> Forall pow_ok (commits acts init_World).
Proof. intros H. apply (pow_inv_run acts init_World w); [constructor|exact H]. Qed.

Lemma committed_blocks_carry_proof_of_work_witness :
  Forall pow_ok (commits run_commit init_World).
Proof.
  apply (committed_blocks_carry_proof_of_work run_commit world_commit).
  vm_compute. reflexivity.
Defined.

(** ** How committed blocks are linked *)

Lemma parent_in_mono (H more : list Block) (b : Block) :
  parent_in H b -> parent_in (H ++ more) b.
Proof.
  intros [Hg|(c & Hc & Hb)]; [left; exact Hg|].
  right. exists c. split; [apply in_or_app; left; exact Hc|exact Hb].
Qed.

Lemma tip_is_same_tip (H : list Block) (s s' : State) :
  previousBlockHash s' = previousBlockHash s -> currentBlock s' = currentBlock s ->
  tip_is H s -> tip_is H s'.
Proof. unfold tip_is. intros -> ->. trivial. Qed.

Lemma parent_of_assembled (H : list Block) (s : State) (miner : string)
    (d now : Z) (b : Block) :
  tip_is H s -> mineBlock miner d now s = Some b -> parent_in H b.
Proof.
  intros Htip Hm. apply mineBlock_Some in Hm as (_ & _ & Hph & _ & Hn & _).
  unfold tip_is in Htip. destruct (last H) as [c|] eqn:Hlast.
  - destruct Htip as [Hh Hc]. right. exists c. split.
    + apply last_Some in Hlast as [l' ->]. apply in_or_app. right. now left.
    + rewrite Hph, Hn, Hh, Hc. split; reflexivity.
  - destruct Htip as [Hh Hc]. left. rewrite Hph, Hn, Hh, Hc. split; reflexivity.
Qed.

Lemma tree_act (a : Action) (w w' : World) (H : list Block) :
  tree_inv w H -> act a w = Some w' ->
  tree_inv w' (H ++ committed a w) /\ Forall (parent_in H) (committed a w).
Proof.
  intros [Htip Hgs]. unfold act. destruct (panicked w) eqn:Hpan; [discriminate|].
  destruct a as [t|miner d|env r|i now fuel].
  - intros [= <-]. cbn [committed]. rewrite app_nil_r.
    split; [|constructor]. split; [exact Htip|exact Hgs].
  - intros [= <-]. cbn [committed]. rewrite app_nil_r.
    split; [|constructor]. split; [exact Htip|].
    cbn [goroutines]. apply Forall_app. split; [exact Hgs|].
    constructor; [discriminate|constructor].
  - intros [= <-]. cbn [committed]. rewrite app_nil_r. split; [|constructor].
    destruct (handleReceive_effect env r w) as [(_ & ->)|(_ & result & ->)];
      [split; assumption|].
    split; [exact Htip|]. cbn [goroutines]. apply Forall_app.
    split; [exact Hgs|]. constructor; [discriminate|constructor].
  - intros Hstep. apply step_cases in Hstep as (_ & g & Hi & Hstep).
    pose proof (Forall_lookup_1 _ _ _ _ Hgs Hi) as Hg.
    cbn [committed]. rewrite Hi.
    destruct g as [miner d|b d|b| |b|b|]; try rewrite app_nil_r.
    + split; [|constructor].
      destruct Hstep as [(b & Hm & ->)|(_ & ->)]; (split; [exact Htip|]);
        cbn [continue goroutines];
        (apply Forall_app; split; [apply Forall_insert; [exact Hgs|discriminate]|]).
      * constructor; [|constructor]. intros b' [= <-].
        exact (parent_of_assembled H _ _ _ _ _ Htip Hm).
      * constructor.
    + split; [|constructor].
      destruct Hstep as [(n & _ & ->)|(_ & ->)]; [|split; assumption].
      split; [exact Htip|]. cbn [continue goroutines].
      apply Forall_app. split; [|constructor; [discriminate|constructor]].
      apply Forall_insert; [exact Hgs|]. intros b' [= <-].
      pose proof (Hg b eq_refl) as Hb. unfold parent_in in *.
      destruct (seal_fields b n) as (_ & -> & _ & -> & _). exact Hb.
    + split; [|constructor; [apply Hg; reflexivity|constructor]]. subst w'.
      split.
      * unfold tip_is. rewrite last_snoc. split; reflexivity.
      * cbn [continue goroutines]. apply Forall_app.
        split; [|constructor; [discriminate|constructor]].
        apply Forall_insert; [|discriminate].
        eapply Forall_impl; [exact Hgs|]. intros g Hg' b' Hb'.
        apply parent_in_mono. now apply Hg'.
    + split; [|constructor].
      destruct Hstep as [(s & Hs & ->)|(_ & ->)]; [|split; assumption].
      apply shrinkPool_Some in Hs as [_ ->]. split; [exact Htip|].
      cbn [continue goroutines]. rewrite app_nil_r.
      apply Forall_insert; [exact Hgs|discriminate].
    + split; [|constructor]. subst w'. split; [exact Htip|].
      cbn [continue goroutines]. rewrite app_nil_r.
      apply Forall_insert; [exact Hgs|discriminate].
    + split; [|constructor]. subst w'. split; [exact Htip|].
      cbn [continue goroutines broadcastBlock]. rewrite app_nil_r.
      apply Forall_insert; [exact Hgs|discriminate].
    + contradiction.
Qed.

Lemma tree_run (acts : list Action) :
  forall (w w' : World) (H : list Block),
    tree_inv w H -> run acts w = Some w' ->
    tip_is (H ++ commits acts w) (globals w')
    /\ forall pre b post,
        commits acts w = pre ++ b :: post -> parent_in (H ++ pre) b.
Proof.
  induction acts as [|a acts IH]; intros w w' H Hinv; cbn [run commits].
  - intros [= <-]. rewrite app_nil_r. split; [exact (proj1 Hinv)|].
    intros pre b post Heq. destruct pre; discriminate Heq.
  - destruct (act a w) as [w1|] eqn:Ha; [|discriminate]. intros Hrun.
    destruct (tree_act a w w1 H Hinv Ha) as [Hinv1 Hc].
    destruct (IH w1 w' _ Hinv1 Hrun) as [Htip Hpar].
    rewrite <- app_assoc in Htip. split; [exact Htip|].
    intros pre b post Heq.
    assert (Hlen : (length (committed a w) <= 1)%nat) by apply length_committed.
    destruct (committed a w) as [|b0 [|b1 bs]]; cbn [length] in Hlen; [| |lia].
    + cbn [app] in Heq. rewrite app_nil_r in Hpar. exact (Hpar pre b post Heq).
    + destruct pre as [|p pre]; cbn [app] in Heq.
      * injection Heq as <- _. rewrite app_nil_r.
        now apply Forall_cons in Hc as [Hc _].
      * injection Heq as <- Heq. specialize (Hpar pre b post Heq).
        now rewrite <- app_assoc in Hpar.
Qed.

(** X14: the blocks committed in a run from the start form a tree rooted
    at the genesis tip.  Each block is attached either to the genesis tip,
    with PrevHash "-1" and number 1, or to a block committed before it, with
    that block's Hash as PrevHash and the number after its number; and at
    the end of the run the tip is the block committed last. *)
Theorem committed_blocks_form_a_tree (acts : list Action) (w : World) :
  run acts init_World = Some w ->
  tip_is (commits acts init_World) (globals w)
  /\ forall pre b post,
      commits acts init_World = pre ++ b :: post -> parent_in pre b.
Proof.
  intros H.
  apply (tree_run acts init_World w []); [|exact H].
  split; [split; reflexivity|constructor].
Qed.

Lemma committed_blocks_form_a_tree_witness : parent_in [] sealed1.
Proof.
  apply (proj2 (committed_blocks_form_a_tree run_commit world_commit
                  ltac:(vm_compute; reflexivity)) [] sealed1 []).
  vm_compute. reflexivity.
Defined.

(** ** The chain of a serial run *)

Lemma in_flight_append_idle (w : World) (s : State) (g : Goroutine)
    (bs : list Block) (p : bool) :
  attempt_block g = None ->
  in_flight (mkWorld s (goroutines w ++ [g]) bs p) = in_flight w.
Proof.
  intros Hg. unfold in_flight. cbn [goroutines]. rewrite omap_app. cbn.
  rewrite Hg. apply app_nil_r.
Qed.

Lemma linked_act (a : Action) (w w' : World) (h : string) :
  linked w h -> serial a w = true -> act a w = Some w' ->
  (committed a w = [] /\ linked w' h)
  \/ (exists b, committed a w = [b] /\ PrevHash b = h /\ linked w' (Hash b)).
Proof.
  intros [Hh Hfl] Hser. unfold act. destruct (panicked w) eqn:Hpan; [discriminate|].
  destruct a as [t|miner d|env r|i now fuel].
  - intros [= <-]. left. split; [reflexivity|]. split; assumption.
  - intros [= <-]. left. split; [reflexivity|]. split; [exact Hh|].
    now rewrite in_flight_append_idle by reflexivity.
  - intros [= <-]. left. split; [reflexivity|].
    destruct (handleReceive_effect env r w) as [(_ & ->)|(_ & result & ->)];
      [split; assumption|].
    split; [exact Hh|]. now rewrite in_flight_append_idle by reflexivity.
  - intros Hstep. apply step_cases in Hstep as (_ & g & Hi & Hstep).
    cbn [serial committed] in *. rewrite Hi in *.
    destruct g as [miner d|b d|b| |b|b|].
    + apply bool_decide_eq_true in Hser. left. split; [reflexivity|].
      destruct Hstep as [(b & Hm & ->)|(_ & ->)].
      * destruct (in_flight_continue w (globals w) i _ GDone [GSearch b d] Hi)
          as (pre & post & H0 & H1).
        rewrite Hser in H0. symmetry in H0.
        apply app_eq_nil in H0 as [-> H0]. apply app_eq_nil in H0 as [_ ->].
        split; [exact Hh|]. right. exists b. split; [rewrite H1; reflexivity|].
        apply mineBlock_Some in Hm as (_ & _ & Hph & _). now rewrite Hph.
      * destruct (in_flight_continue w (globals w) i _ GDone [] Hi)
          as (pre & post & H0 & H1).
        split; [exact Hh|]. left. rewrite H1.
        cbn [blocks_of attempt_block omap app] in *. rewrite app_nil_r.
        now rewrite <- H0.
    + left. split; [reflexivity|].
      destruct Hstep as [(n & _ & ->)|(_ & ->)]; [|split; assumption].
      destruct (in_flight_continue w (globals w) i _ (GCommit (seal b n))
                  [GUpload (seal b n)] Hi) as (pre & post & H0 & H1).
      split; [exact Hh|]. right. exists (seal b n).
      destruct Hfl as [Hfl|(b' & Hfl & Hb')]; rewrite Hfl in H0; symmetry in H0.
      * apply app_eq_nil in H0 as [_ H0]. discriminate H0.
      * apply one_in_flight in H0 as (-> & -> & ->).
        split; [rewrite H1; reflexivity|]. exact Hb'.
    + right. exists b. split; [reflexivity|]. subst w'.
      destruct (in_flight_continue w (commitTip b (globals w)) i _ GShrink
                  [GBroadcast b] Hi) as (pre & post & H0 & H1).
      destruct Hfl as [Hfl|(b' & Hfl & Hb')]; rewrite Hfl in H0; symmetry in H0.
      * apply app_eq_nil in H0 as [_ H0]. discriminate H0.
      * apply one_in_flight in H0 as (-> & -> & ->).
        split; [exact Hb'|]. split; [reflexivity|]. left. rewrite H1. reflexivity.
    + left. split; [reflexivity|].
      destruct Hstep as [(s & Hs & ->)|(_ & ->)]; [|split; assumption].
      destruct (in_flight_continue w s i _ GDone [] Hi) as (pre & post & H0 & H1).
      apply shrinkPool_Some in Hs as [_ ->]. split; [exact Hh|].
      rewrite H1. cbn [blocks_of attempt_block omap app] in *.
      rewrite app_nil_r. rewrite <- H0. exact Hfl.
    + left. split; [reflexivity|]. subst w'.
      destruct (in_flight_continue w (globals w) i _ GDone [] Hi)
        as (pre & post & H0 & H1).
      split; [exact Hh|]. rewrite H1. cbn [blocks_of attempt_block omap app] in *.
      rewrite app_nil_r. rewrite <- H0. exact Hfl.
    + left. split; [reflexivity|]. subst w'.
      destruct (in_flight_continue (broadcastBlock b w) (globals w) i _ GDone []
                  Hi) as (pre & post & H0 & H1).
      split; [exact Hh|]. rewrite H1. cbn [blocks_of attempt_block omap app] in *.
      rewrite app_nil_r.
      change (in_flight (broadcastBlock b w)) with (in_flight w) in H0.
      rewrite <- H0. exact Hfl.
    + contradiction.
Qed.

Lemma linked_run (acts : list Action) :
  forall (w w' : World) (h : string),
    linked w h -> run_serial acts w = Some w' -> chain_from h (commits acts w).
Proof.
  induction acts as [|a acts IH]; intros w w' h Hw; cbn [run_serial commits].
  - intros _. exact I.
  - destruct (serial a w) eqn:Hser; [|discriminate].
    destruct (act a w) as [w1|] eqn:Ha; [|discriminate]. intros Hrun.
    destruct (linked_act a w w1 h Hw Hser Ha)
      as [(Hc & Hw1)|(b & Hc & Hb & Hw1)]; rewrite Hc; cbn [app chain_from].
    + exact (IH w1 w' h Hw1 Hrun).
    + split; [exact Hb|]. exact (IH w1 w' _ Hw1 Hrun).
Qed.

(** X15: in a serial run the committed blocks form one chain: the first
    has PrevHash "-1" and each later one has the Hash of the block committed
    just before it as its PrevHash. *)
Theorem serial_commits_form_a_chain (acts : list Action) (w : World) :
  run_serial acts init_World = Some w ->
  chain_from "-1" (commits acts init_World).
Proof.
  intros H. apply (linked_run acts init_World w); [|exact H].
  split; [reflexivity|left; reflexivity].
Qed.

Lemma serial_commits_form_a_chain_witness : chain_from "-1" [sealed1].
Proof.
  assert (commits run_commit init_World = [sealed1]) as <-
    by (vm_compute; reflexivity).
  apply (serial_commits_form_a_chain run_commit world_commit).
  vm_compute. reflexivity.
Defined.

(** ** Sequential runs *)

Lemma unfinished_continue (w : World) (s : State) (i : nat) (g0 g : Goroutine)
    (new : list Goroutine) :
  goroutines w !! i = Some g0 ->
  exists pre post,
    unfinished w = pre ++ stages_of g0 ++ post
    /\ unfinished (continue w s i g new)
       = pre ++ stages_of g ++ post ++ omap stage new.
Proof.
  intros Hi. unfold unfinished. cbn [continue goroutines].
  exists (omap stage (take i (goroutines w))),
         (omap stage (drop (S i) (goroutines w))).
  pose proof (lookup_lt_Some _ _ _ Hi) as Hlt.
  assert (forall g' l, omap stage (g' :: l) = stages_of g' ++ omap stage l) as Hcons.
  { intros g' l. unfold stages_of. cbn. destruct (stage g'); reflexivity. }
  rewrite insert_take_drop by exact Hlt.
  rewrite <- (take_drop_middle _ _ _ Hi) at 1.
  rewrite !omap_app, !Hcons, <- !app_assoc. split; reflexivity.
Qed.

Lemma one_unfinished (pre post : list Stage) (x y : Stage) :
  pre ++ [x] ++ post = [y] -> pre = [] /\ post = [] /\ x = y.
Proof.
  destruct pre as [|p pre]; cbn.
  - intros [= -> ->]. repeat split.
  - intros [= _ H]. destruct pre; discriminate H.
Qed.

Lemma unfinished_same (w : World) (s : State) (i : nat) (g0 : Goroutine) :
  goroutines w !! i = Some g0 -> stage g0 = None ->
  unfinished (continue w s i GDone []) = unfinished w.
Proof.
  intros Hi Hg. destruct (unfinished_continue w s i g0 GDone [] Hi)
    as (pre & post & H0 & H1).
  rewrite H1, H0. unfold stages_of. rewrite Hg. cbn. now rewrite app_nil_r.
Qed.

(** Adding at the tail of the pool keeps the invariant. *)
Lemma seq_inv_add (w w' : World) (A C x : list Transaction) :
  seq_inv w A C -> unfinished w' = unfinished w ->
  transactionPool (globals w') = transactionPool (globals w) ++ x ->
  seq_inv w' (A ++ x) C.
Proof.
  unfold seq_inv. intros Hinv Hu Hp. rewrite Hu, Hp.
  destruct Hinv as [(H0 & ->)|[(b & H0 & -> & Hlen & Hb)|(H0 & Hlen & C' & -> & ->)]].
  - left. split; [exact H0|now rewrite app_assoc].
  - right. left. exists b. split; [exact H0|]. split; [now rewrite app_assoc|].
    split; [rewrite length_app; lia|]. now rewrite take_app_le by lia.
  - right. right. split; [exact H0|]. split; [rewrite length_app; lia|].
    exists C'. rewrite take_app_le by lia. split; [reflexivity|].
    now rewrite app_assoc.
Qed.

Lemma seq_inv_act (a : Action) (w w' : World) (A C : list Transaction) :
  seq_inv w A C -> sequential a w = true -> act a w = Some w' ->
  seq_inv w' (A ++ adds a w) (C ++ concat (map Transactions (committed a w)))
  /\ (panicked w' = true ->
      exists i now fuel b d,
        a = Step i now fuel /\ goroutines w !! i = Some (GSearch b d)
        /\ proofOfWork fuel b d = Panics).
Proof.
  intros Hinv Hseq. unfold act. destruct (panicked w) eqn:Hpan; [discriminate|].
  destruct a as [t|miner d|env r|i now fuel].
  - intros [= <-]. cbn [committed map concat adds panicked]. rewrite app_nil_r.
    split; [|discriminate]. apply (seq_inv_add w); [exact Hinv| |reflexivity].
    reflexivity.
  - intros [= <-]. cbn [committed map concat adds panicked]. rewrite !app_nil_r.
    split; [|discriminate].
    rewrite <- (app_nil_r A). apply (seq_inv_add w); [exact Hinv| |cbn; now rewrite app_nil_r].
    unfold unfinished. cbn [goroutines]. rewrite omap_app. cbn. apply app_nil_r.
  - intros [= <-]. cbn [committed map concat]. rewrite app_nil_r. split.
    + apply (seq_inv_add w); [exact Hinv| |apply adds_receive].
      destruct (handleReceive_effect env r w) as [(_ & ->)|(_ & result & ->)];
        [reflexivity|].
      unfold unfinished. cbn [goroutines]. rewrite omap_app. cbn. apply app_nil_r.
    + destruct (handleReceive_effect env r w) as [(_ & ->)|(_ & result & ->)];
        cbn [panicked]; congruence.
  - intros Hstep. apply step_cases in Hstep as (_ & g & Hi & Hstep).
    cbn [sequential committed adds] in *. rewrite Hi in *. rewrite app_nil_r.
    destruct g as [miner d|b d|b| |b|b|]; cbn [map concat]; try rewrite app_nil_r.
    + apply bool_decide_eq_true in Hseq.
      destruct Hinv as [(_ & HA)|[(b & H0 & _)|(H0 & _)]];
        try (rewrite Hseq in H0; discriminate H0).
      destruct Hstep as [(b & Hm & ->)|(_ & ->)]; (split; [|cbn; congruence]).
      * destruct (unfinished_continue w (globals w) i _ GDone [GSearch b d] Hi)
          as (pre & post & H0 & H1).
        rewrite Hseq in H0. symmetry in H0.
        apply app_eq_nil in H0 as [-> H0]. apply app_eq_nil in H0 as [_ ->].
        right. left. exists b. split; [rewrite H1; reflexivity|].
        apply mineBlock_Some in Hm as (Hlen & Htx & _).
        split; [exact HA|]. split; [exact Hlen|exact Htx].
      * left. split; [|exact HA].
        rewrite (unfinished_same w (globals w) i _ Hi eq_refl). exact Hseq.
    + destruct (unfinished_continue w (globals w) i _ (GCommit (seal b
        match proofOfWork fuel b d with Returns n => n | _ => 0 end))
        [GUpload (seal b match proofOfWork fuel b d with Returns n => n | _ => 0 end)]
        Hi) as (pre & post & H0 & H1).
      destruct Hinv as [(Hu & _)|[(b' & Hu & HA & Hlen & Hb)|(Hu & _)]];
        rewrite Hu in H0; symmetry in H0.
      * apply app_eq_nil in H0 as [_ H0]. discriminate H0.
      * apply one_unfinished in H0 as (-> & -> & [= <-]).
        destruct Hstep as [(n & Hpow & ->)|(Hpow & ->)].
        -- split; [|cbn; congruence]. rewrite Hpow in H1.
           right. left. exists (seal b n). split; [rewrite H1; reflexivity|].
           split; [exact HA|]. split; [exact Hlen|].
           now destruct (seal_fields b n) as (-> & _).
        -- split; [|intros _; exists i, now, fuel, b, d; repeat split; assumption].
           right. left. exists b. repeat split; assumption.
      * apply one_unfinished in H0 as (_ & _ & H0). discriminate H0.
    + subst w'. split; [|cbn; congruence].
      destruct (unfinished_continue w (commitTip b (globals w)) i _ GShrink
                  [GBroadcast b] Hi) as (pre & post & H0 & H1).
      destruct Hinv as [(Hu & _)|[(b' & Hu & HA & Hlen & Hb)|(Hu & _)]];
        rewrite Hu in H0; symmetry in H0.
      * apply app_eq_nil in H0 as [_ H0]. discriminate H0.
      * apply one_unfinished in H0 as (-> & -> & [= <-]).
        right. right. split; [rewrite H1; reflexivity|].
        cbn [continue globals commitTip transactionPool].
        split; [exact Hlen|]. exists C. rewrite Hb. split; [reflexivity|exact HA].
      * apply one_unfinished in H0 as (_ & _ & H0). discriminate H0.
    + destruct (unfinished_continue w (globals w) i _ GDone [] Hi)
        as (pre & post & H0 & H1).
      destruct Hinv as [(Hu & _)|[(b' & Hu & _)|(Hu & Hlen & C' & HC & HA)]];
        rewrite Hu in H0; symmetry in H0.
      * apply app_eq_nil in H0 as [_ H0]. discriminate H0.
      * apply one_unfinished in H0 as (_ & _ & H0). discriminate H0.
      * apply one_unfinished in H0 as (-> & -> & _).
        destruct Hstep as [(s & Hs & ->)|(Hs & ->)].
        -- split; [|cbn; congruence].
           apply shrinkPool_Some in Hs as [_ ->]. left. split.
           ++ destruct (unfinished_continue w
                          (mkState (drop 3 (transactionPool (globals w)))
                                   (currentBlock (globals w))
                                   (previousBlockCID (globals w))
                                   (previousBlockHash (globals w)))
                          i _ GDone [] Hi) as (pre & post & H0' & H1').
              rewrite Hu in H0'. symmetry in H0'.
              apply one_unfinished in H0' as (-> & -> & _). rewrite H1'. reflexivity.
           ++ cbn [continue globals transactionPool]. rewrite HA, HC.
              rewrite <- app_assoc. now rewrite take_drop.
        -- exfalso. unfold shrinkPool in Hs.
           destruct (Nat.leb_spec 3 (length (transactionPool (globals w))));
             [discriminate|lia].
    + subst w'. split; [|cbn; congruence].
      rewrite <- (app_nil_r A).
      apply (seq_inv_add w); [exact Hinv| |cbn; now rewrite app_nil_r].
      exact (unfinished_same w (globals w) i _ Hi eq_refl).
    + subst w'. split; [|cbn; congruence].
      rewrite <- (app_nil_r A).
      apply (seq_inv_add w); [exact Hinv| |cbn; now rewrite app_nil_r].
      exact (unfinished_same (broadcastBlock b w) (globals w) i _ Hi eq_refl).
    + contradiction.
Qed.

Lemma seq_inv_run (acts : list Action) :
  forall (w w' : World) (A C : list Transaction),
    seq_inv w A C -> run_sequential acts w = Some w' ->
    seq_inv w' (A ++ added acts w)
            (C ++ concat (map Transactions (commits acts w))).
Proof.
  induction acts as [|a acts IH]; intros w w' A C Hinv;
    cbn [run_sequential added commits].
  - intros [= <-]. cbn. now rewrite !app_nil_r.
  - destruct (sequential a w) eqn:Hseq; [|discriminate].
    destruct (act a w) as [w1|] eqn:Ha; [|discriminate]. intros Hrun.
    destruct (seq_inv_act a w w1 A C Hinv Hseq Ha) as [Hinv1 _].
    specialize (IH w1 w' _ _ Hinv1 Hrun).
    now rewrite map_app, concat_app, !app_assoc.
Qed.

Lemma proofOfWork_loop_no_panic (fuel : nat) (b : Block) (d k : Z) :
  0 <= d -> proofOfWork_loop fuel b d k <> Panics.
Proof.
  intros Hd. revert k. induction fuel as [|fuel IH]; intros k;
    cbn [proofOfWork_loop]; [discriminate|].
  rewrite validProof_leading_zeros by assumption.
  destruct (Z.to_nat d <=? leading_zeros (generateHash b k))%nat;
    [discriminate|apply IH].
Qed.

Lemma nonneg_act (a : Action) (w w' : World) :
  nonneg_action a -> Forall nonneg_goroutine (goroutines w) ->
  act a w = Some w' -> Forall nonneg_goroutine (goroutines w').
Proof.
  intros Ha Hgs. unfold act. destruct (panicked w) eqn:Hpan; [discriminate|].
  destruct a as [t|miner d|env r|i now fuel].
  - intros [= <-]. exact Hgs.
  - intros [= <-]. cbn [goroutines]. apply Forall_app. split; [exact Hgs|].
    repeat constructor. exact Ha.
  - intros [= <-].
    destruct (handleReceive_effect env r w) as [(_ & ->)|(_ & result & ->)];
      [exact Hgs|].
    cbn [goroutines]. apply Forall_app. split; [exact Hgs|].
    repeat constructor. cbn. lia.
  - intros H. apply step_cases in H as (_ & g & Hi & H).
    pose proof (Forall_lookup_1 _ _ _ _ Hgs Hi) as Hg.
    destruct g as [miner d|b d|b| |b|b|].
    + destruct H as [(b & _ & ->)|(_ & ->)]; cbn [continue goroutines];
        (apply Forall_app; split; [apply Forall_insert; [exact Hgs|exact I]|]);
        repeat constructor. exact Hg.
    + destruct H as [(n & _ & ->)|(_ & ->)]; [|exact Hgs].
      cbn [continue goroutines]. apply Forall_app.
      split; [apply Forall_insert; [exact Hgs|exact I]|repeat constructor].
    + subst w'. cbn [continue goroutines]. apply Forall_app.
      split; [apply Forall_insert; [exact Hgs|exact I]|repeat constructor].
    + destruct H as [(s & _ & ->)|(_ & ->)]; [|exact Hgs].
      cbn [continue goroutines]. rewrite app_nil_r.
      apply Forall_insert; [exact Hgs|exact I].
    + subst w'. cbn [continue goroutines]. rewrite app_nil_r.
      apply Forall_insert; [exact Hgs|exact I].
    + subst w'. cbn [continue goroutines broadcastBlock]. rewrite app_nil_r.
      apply Forall_insert; [exact Hgs|exact I].
    + contradiction.
Qed.

Lemma seq_run_safe (acts : list Action) :
  forall (w w' : World) (A C : list Transaction),
    seq_inv w A C -> Forall nonneg_goroutine (goroutines w) ->
    Forall nonneg_action acts -> panicked w = false ->
    run_sequential acts w = Some w' -> panicked w' = false.
Proof.
  induction acts as [|a acts IH]; intros w w' A C Hinv Hgs Hacts Hpan;
    cbn [run_sequential].
  - now intros [= <-].
  - destruct (sequential a w) eqn:Hseq; [|discriminate].
    destruct (act a w) as [w1|] eqn:Ha; [|discriminate]. intros Hrun.
    apply Forall_cons in Hacts as [Hna Hacts].
    destruct (seq_inv_act a w w1 A C Hinv Hseq Ha) as [Hinv1 Hp1].
    apply (IH w1 w' _ _ Hinv1 (nonneg_act a w w1 Hna Hgs Ha) Hacts); [|exact Hrun].
    destruct (panicked w1) eqn:Hpan1; [|reflexivity].
    destruct (Hp1 eq_refl) as (i & now & fuel & b & d & -> & Hi & Hpow).
    pose proof (Forall_lookup_1 _ _ _ _ Hgs Hi) as Hd. cbn in Hd.
    exfalso. exact (proofOfWork_loop_no_panic fuel b d 0 Hd Hpow).
Qed.

(** X16: a sequential run is first in, first out.  The batches of the
    committed blocks, one after the other in commit order, are a prefix of
    the transactions added; once every attempt has run to its end, what was
    added is exactly what was committed followed by what is still in the
    pool (nothing twice, nothing lost); and if no [mineBlock] is started at
    a negative difficulty, the run does not panic: the removal always finds
    its three transactions. *)
Theorem sequential_run_is_fifo (acts : list Action) (w : World) :
  run_sequential acts init_World = Some w ->
  concat (map Transactions (commits acts init_World))
    `prefix_of` added acts init_World
  /\ (unfinished w = [] ->
      added acts init_World
      = concat (map Transactions (commits acts init_World))
        ++ transactionPool (globals w))
  /\ (Forall nonneg_action acts -> panicked w = false).
Proof.
  intros Hrun.
  assert (Hinit : seq_inv init_World [] []) by (left; split; reflexivity).
  pose proof (seq_inv_run acts init_World w [] [] Hinit Hrun) as Hinv.
  cbn [app] in Hinv. split; [|split].
  - destruct Hinv as [(_ & ->)|[(b & _ & -> & _)|(_ & _ & C' & -> & ->)]].
    + now eexists.
    + now eexists.
    + exists (drop 3 (transactionPool (globals w))).
      rewrite <- app_assoc. now rewrite take_drop.
  - intros Hu.
    destruct Hinv as [(_ & ->)|[(b & Hu' & _)|(Hu' & _)]]; [reflexivity| |];
      rewrite Hu in Hu'; discriminate Hu'.
  - intros Hacts.
    apply (seq_run_safe acts init_World w [] [] Hinit); auto; constructor.
Qed.

Lemma sequential_run_is_fifo_witness :
  (concat (map Transactions (commits run_commit init_World))
     `prefix_of` added run_commit init_World)
  /\ panicked world_commit = false.
Proof.
  destruct (sequential_run_is_fifo run_commit world_commit
              ltac:(vm_compute; reflexivity)) as (H1 & _ & H3).
  split; [exact H1|]. apply H3. repeat constructor; cbn; lia.
Defined.

(** ** What is broadcast *)

Lemma omap_continue {B : Type} (f : Goroutine -> option B) (w : World)
    (s : State) (i : nat) (g0 g : Goroutine) (new : list Goroutine) :
  goroutines w !! i = Some g0 ->
  exists pre post,
    omap f (goroutines w) = pre ++ option_list (f g0) ++ post
    /\ omap f (goroutines (continue w s i g new))
       = pre ++ option_list (f g) ++ post ++ omap f new.
Proof.
  intros Hi. cbn [continue goroutines].
  exists (omap f (take i (goroutines w))), (omap f (drop (S i) (goroutines w))).
  pose proof (lookup_lt_Some _ _ _ Hi) as Hlt.
  assert (forall g' l, omap f (g' :: l) = option_list (f g') ++ omap f l) as Hcons.
  { intros g' l. cbn. destruct (f g'); reflexivity. }
  rewrite insert_take_drop by exact Hlt.
  rewrite <- (take_drop_middle _ _ _ Hi) at 1.
  rewrite !omap_app, !Hcons, <- !app_assoc. split; reflexivity.
Qed.

Lemma broadcast_act (a : Action) (w w' : World) :
  act a w = Some w' ->
  broadcasts w' ++ awaiting_broadcast w'
  ≡ₚ (broadcasts w ++ awaiting_broadcast w) ++ committed a w.
Proof.
  unfold act. destruct (panicked w) eqn:Hpan; [discriminate|].
  destruct a as [t|miner d|env r|i now fuel].
  - intros [= <-]. cbn [committed]. now rewrite app_nil_r.
  - intros [= <-]. cbn [committed]. rewrite app_nil_r.
    unfold awaiting_broadcast. cbn [goroutines broadcasts]. rewrite omap_app. cbn.
    now rewrite app_nil_r.
  - intros [= <-]. cbn [committed]. rewrite app_nil_r.
    destruct (handleReceive_effect env r w) as [(_ & ->)|(_ & result & ->)];
      [reflexivity|].
    unfold awaiting_broadcast. cbn [goroutines broadcasts]. rewrite omap_app. cbn.
    now rewrite app_nil_r.
  - intros H. apply step_cases in H as (_ & g & Hi & H).
    cbn [committed]. rewrite Hi. unfold awaiting_broadcast.
    destruct g as [miner d|b d|b| |b|b|].
    + rewrite app_nil_r.
      destruct H as [(b & _ & ->)|(_ & ->)].
      * destruct (omap_continue to_broadcast w (globals w) i _ GDone
                    [GSearch b d] Hi) as (pre & post & -> & ->).
        cbn. now rewrite !app_nil_r.
      * destruct (omap_continue to_broadcast w (globals w) i _ GDone [] Hi)
          as (pre & post & -> & ->).
        cbn. now rewrite !app_nil_r.
    + rewrite app_nil_r.
      destruct H as [(n & _ & ->)|(_ & ->)]; [|reflexivity].
      destruct (omap_continue to_broadcast w (globals w) i _ (GCommit (seal b n))
                  [GUpload (seal b n)] Hi) as (pre & post & -> & ->).
      cbn. now rewrite !app_nil_r.
    + subst w'.
      destruct (omap_continue to_broadcast w (commitTip b (globals w)) i _ GShrink
                  [GBroadcast b] Hi) as (pre & post & -> & ->).
      cbn. now rewrite !app_assoc.
    + rewrite app_nil_r.
      destruct H as [(s & _ & ->)|(_ & ->)]; [|reflexivity].
      destruct (omap_continue to_broadcast w s i _ GDone [] Hi)
        as (pre & post & -> & ->).
      cbn. now rewrite !app_nil_r.
    + rewrite app_nil_r. subst w'.
      destruct (omap_continue to_broadcast w (globals w) i _ GDone [] Hi)
        as (pre & post & -> & ->).
      cbn. now rewrite !app_nil_r.
    + rewrite app_nil_r. subst w'.
      destruct (omap_continue to_broadcast (broadcastBlock b w) (globals w) i _
                  GDone [] Hi) as (pre & post & H0 & ->).
      cbn [broadcastBlock goroutines] in H0. rewrite H0.
      cbn [continue broadcasts broadcastBlock option_list to_broadcast omap app].
      rewrite app_nil_r. rewrite <- !app_assoc. apply Permutation_app_head.
      cbn [app]. apply Permutation_middle.
    + contradiction.
Qed.

Lemma broadcast_run (acts : list Action) :
  forall w w' : World,
    run acts w = Some w' ->
    broadcasts w' ++ awaiting_broadcast w'
    ≡ₚ (broadcasts w ++ awaiting_broadcast w) ++ commits acts w.
Proof.
  induction acts as [|a acts IH]; intros w w'; cbn [run commits].
  - intros [= <-]. now rewrite app_nil_r.
  - destruct (act a w) as [w1|] eqn:Ha; [|discriminate]. intros Hrun.
    rewrite (IH w1 w' Hrun), (broadcast_act a w w1 Ha). now rewrite app_assoc.
Qed.

(** X17: [broadcastBlock] prints committed blocks only, and each commit at
    most once: in every run from the start, the blocks printed together
    with the blocks whose broadcast goroutine has not run yet are, up to
    their order, exactly the blocks committed. *)
Theorem broadcasts_are_the_commits (acts : list Action) (w : World) :
  run acts init_World = Some w ->
  broadcasts w ++ awaiting_broadcast w ≡ₚ commits acts init_World
  /\ broadcasts w ⊆+ commits acts init_World.
Proof.
  intros H. pose proof (broadcast_run acts init_World w H) as Hp.
  cbn [init_World broadcasts awaiting_broadcast goroutines omap app] in Hp.
  change (list_omap _ _ to_broadcast []) with (@nil Block) in Hp.
  split; [exact Hp|]. rewrite <- Hp. apply submseteq_inserts_r. reflexivity.
Qed.

Lemma broadcasts_are_the_commits_witness :
  broadcasts world_commit ++ awaiting_broadcast world_commit
  ≡ₚ commits run_commit init_World.
Proof.
  apply (broadcasts_are_the_commits run_commit world_commit).
  vm_compute. reflexivity.
Defined.

(** ** Blocks mined for requests *)

Lemma at_four_act (a : Action) (w w' : World) :
  by_request a -> Forall at_four (goroutines w) -> act a w = Some w' ->
  Forall at_four (goroutines w')
  /\ Forall (fun b => Difficulty b = 4) (committed a w).
Proof.
  intros Ha Hgs. unfold act. destruct (panicked w) eqn:Hpan; [discriminate|].
  destruct a as [t|miner d|env r|i now fuel].
  - intros [= <-]. split; [exact Hgs|constructor].
  - contradiction.
  - intros [= <-]. split; [|constructor].
    destruct (handleReceive_effect env r w) as [(_ & ->)|(_ & result & ->)];
      [exact Hgs|].
    cbn [goroutines]. apply Forall_app. split; [exact Hgs|].
    repeat constructor.
  - intros H. apply step_cases in H as (_ & g & Hi & H).
    pose proof (Forall_lookup_1 _ _ _ _ Hgs Hi) as Hg.
    cbn [committed]. rewrite Hi.
    destruct g as [miner d|b d|b| |b|b|].
    + split; [|constructor]. cbn in Hg. subst d.
      destruct H as [(b & Hm & ->)|(_ & ->)]; cbn [continue goroutines];
        (apply Forall_app; split; [apply Forall_insert; [exact Hgs|exact I]|]).
      * apply mineBlock_Some in Hm as (_ & _ & _ & _ & _ & _ & _ & Hd).
        repeat constructor. exact Hd.
      * constructor.
    + split; [|constructor]. destruct Hg as [-> Hd].
      destruct H as [(n & _ & ->)|(_ & ->)]; [|exact Hgs].
      cbn [continue goroutines]. apply Forall_app. split; [|repeat constructor].
      apply Forall_insert; [exact Hgs|]. exact Hd.
    + split; [|constructor; [exact Hg|constructor]]. subst w'.
      cbn [continue goroutines]. apply Forall_app. split; [|repeat constructor].
      apply Forall_insert; [exact Hgs|exact I].
    + split; [|constructor].
      destruct H as [(s & _ & ->)|(_ & ->)]; [|exact Hgs].
      cbn [continue goroutines]. rewrite app_nil_r.
      apply Forall_insert; [exact Hgs|exact I].
    + split; [|constructor]. subst w'. cbn [continue goroutines].
      rewrite app_nil_r. apply Forall_insert; [exact Hgs|exact I].
    + split; [|constructor]. subst w'. cbn [continue goroutines broadcastBlock].
      rewrite app_nil_r. apply Forall_insert; [exact Hgs|exact I].
    + contradiction.
Qed.

Lemma at_four_run (acts : list Action) :
  forall w w' : World,
    Forall by_request acts -> Forall at_four (goroutines w) ->
    run acts w = Some w' ->
    Forall (fun b => Difficulty b = 4) (commits acts w).
Proof.
  induction acts as [|a acts IH]; intros w w' Hacts Hgs; cbn [run commits].
  - intros _. constructor.
  - destruct (act a w) as [w1|] eqn:Ha; [|discriminate]. intros Hrun.
    apply Forall_cons in Hacts as [Hna Hacts].
    destruct (at_four_act a w w1 Hna Hgs Ha) as [Hgs1 Hc].
    apply Forall_app. split; [exact Hc|]. exact (IH w1 w' Hacts Hgs1 Hrun).
Qed.

(** X18: when [mineBlock] is started by requests to /receive only, every
    committed block has Difficulty 4 and a Hash that begins with four
    zeros. *)
Theorem request_blocks_start_with_four_zeros (acts : list Action) (w : World) :
  Forall by_request acts -> run acts init_World = Some w ->
  Forall (fun b => Difficulty b = 4 /\ (4 <= leading_zeros (Hash b))%nat)
         (commits acts init_World).
Proof.
  intros Hacts Hrun.
  pose proof (at_four_run acts init_World w Hacts ltac:(constructor) Hrun) as H4.
  pose proof (pow_inv_run acts init_World w ltac:(constructor) Hrun) as Hpow.
  apply Forall_forall. intros b Hb.
  rewrite Forall_forall in H4, Hpow.
  specialize (H4 b Hb). destruct (Hpow b Hb) as (_ & _ & _ & Hz).
  split; [exact H4|]. rewrite H4 in Hz. exact Hz.
Qed.

(** ** The handler without the chain (the standalone executor) *)

(** X19: the response of [handleReceive] does not depend on the pool or on
    the chain: it is the response of the standalone handler, which has the
    same checks and makes the same calls but records nothing. *)
Theorem handleReceive_response_is_plain (env : Env) (r : Request) (w : World) :
  fst (handleReceive env r w) = handleReceive_plain env r.
Proof.
  unfold handleReceive, handleReceive_plain. repeat case_match; reflexivity.
Qed.

Lemma request_blocks_start_with_four_zeros_witness :
  Forall (fun b => Difficulty b = 4 /\ (4 <= leading_zeros (Hash b))%nat)
         (commits run_requests init_World).
Proof.
  eapply (request_blocks_start_with_four_zeros run_requests).
  - repeat constructor.
  - vm_compute. reflexivity.
Defined.

Example run_requests_commits :
  map (fun b => (Creator b, Nonce b, Hash b)) (commits run_requests init_World)
  = [("10.0.0.9", 0,
      "000018097e76760e0161c2accbd4cd35af232dddcf2de11344df1ea7f08601e5")].
Proof. vm_compute. reflexivity. Qed.
